(** * BuggyOnMars: the track generator, jump envelope, vehicle physics and
      collision rules of [minigame.py], embedded and verified.

    Conventions of the embedding.

    - Python [int] values are [Z].
    - Python [float] values are read as the rational numbers they denote
      and the float operations as exact rational arithmetic ([Q]); the
      conversion [int(x)] is truncation toward zero.  Rounding of the
      binary64 operations is not modelled.
    - [random.Random] is an oracle: a tape of raw outcomes and a cursor.
      Every call of [random()] or [randint(a, b)] consumes one entry, so
      the cursor counts the draws made.
    - Objects mutated in place ([TrackGen], [Player], the bullet
      dictionaries) are records passed explicitly from call to call. *)

From Stdlib Require Import String.
From Stdlib Require Import ZArith QArith Qround Qabs List Bool Lia Lqa.
Import ListNotations.

Open Scope Z_scope.

(** ** Python primitives *)

Module Py.

(** [int(x)] for a float [x]: truncation toward zero. *)
Definition int (x : Q) : Z := Z.quot (Qnum x) (Zpos (Qden x)).

(** [x < y] on floats, as a boolean. *)
Definition ltb (x y : Q) : bool := negb (Qle_bool y x).

(** [x >= y] on floats, as a boolean. *)
Definition geb (x y : Q) : bool := Qle_bool y x.

(** [x > y] on floats, as a boolean. *)
Definition gtb (x y : Q) : bool := negb (Qle_bool x y).

(** [round(x)] with one argument: nearest integer, ties to the even one. *)
Definition round (x : Q) : Z :=
  let f := Qfloor x in
  match Qcompare (x - inject_Z f) (1 # 2) with
  | Lt => f
  | Gt => f + 1
  | Eq => if Z.even f then f else f + 1
  end.

(** [clamp(v, lo, hi)] of the source, on integers. *)
Definition clamp (v lo hi : Z) : Z :=
  if v <? lo then lo else if hi <? v then hi else v.

End Py.

(** ** Tunables *)

Definition FPS : Z := 30.
Definition GRAVITY : Q := 22.
Definition JUMP_VEL : Q := 10.
Definition START_SPEED : Q := 1.

Definition PIT_RATE : Q := 10 # 1000.
Definition CONE_RATE : Q := 14 # 1000.
Definition ENEMY_RATE : Q := 10 # 1000.
Definition STEP_RATE : Q := 12 # 1000.
Definition STEP_UP_BIAS : Q := 55 # 100.
Definition MAX_ELEV : Z := 10.

Definition PIT_MIN : Z := 3.
Definition PIT_MAX : Z := 9.
Definition SAFE_START_SEC : Q := 2.
Definition EDGE_BUFFER : Z := 4.
Definition SPACING_FACTOR : Q := 12 # 10.

Definition ENEMY_SCORE : Z := 25.
Definition ENEMY_SHIM_PER_FRAME : Q := 35 # 100.

(** The big fly and its bounding box. *)
Definition ENEMY_ART : list String.string :=
  [" //^\ \ "%string; "<(o o o)>"%string; "  \_-_/ "%string].
Definition ENEMY_HEIGHT : Z := Z.of_nat (length ENEMY_ART).
Definition ENEMY_WIDTH : Z :=
  Z.of_nat (fold_right Nat.max 0%nat (map String.length ENEMY_ART)).

(** ** Jump envelope *)

Definition max_jump_columns (speed_cols_per_frame : Q) : Z :=
  let vx := (speed_cols_per_frame * inject_Z FPS)%Q in
  let t_air := (2 * (JUMP_VEL / GRAVITY))%Q in
  Z.max 3 (Py.int (vx * t_air * (9 # 10))%Q).

Definition min_spacing (speed_cols_per_frame : Q) : Z :=
  Py.int (inject_Z (max_jump_columns speed_cols_per_frame) * SPACING_FACTOR)%Q.

(** ** The random source

    [random.Random] as an oracle.  [tape] lists the raw outcomes and
    [cursor] is the position of the next one; a call consumes exactly
    one entry. *)

Record Random := mkRandom { tape : nat -> Z; cursor : nat }.

Definition consume (r : Random) : Random :=
  {| tape := tape r; cursor := S (cursor r) |}.

(** [rng.random()]: a float in [0, 1) with 53 bits of resolution. *)
Definition random (r : Random) : Q * Random :=
  (Qmake (tape r (cursor r) mod 2 ^ 53) (2 ^ 53), consume r).

(** [rng.randint(a, b)]: an integer of [a .. b]; [ValueError] (here
    [None]) when the range is empty. *)
Definition randint (a b : Z) (r : Random) : option (Z * Random) :=
  if b <? a then None
  else Some (a + tape r (cursor r) mod (b - a + 1), consume r).

(** ** Track generator *)

(** A column is [(cell, elev)]: ['G'] ground, ['C'] cone on the surface,
    [' '] pit at the surface. *)
Inductive cell := Ground | Cone | Pit.

(** The enemy marker [{'type': 'fly'}]. *)
Inductive enemy_marker := Fly.

Definition column : Type := cell * Z.
Definition output : Type := column * option enemy_marker.

Record TrackGen := mkTrackGen {
  warmup_cols : Z;
  cooldown : Z;
  pit_left : Z;
  edge_protect : Z;
  elev : Z;
  max_elev : Z;
  rng : Random
}.

(** [TrackGen.__init__]; the freshly seeded random source is [r]. *)
Definition TrackGen_init (width warmup max_elevation : Z) (r : Random)
  : TrackGen :=
  {| warmup_cols := warmup; cooldown := 0; pit_left := 0; edge_protect := 0;
     elev := 0; max_elev := max_elevation; rng := r |}.

Definition set_warmup_cols (v : Z) (g : TrackGen) : TrackGen :=
  mkTrackGen v (cooldown g) (pit_left g) (edge_protect g) (elev g)
             (max_elev g) (rng g).
Definition set_cooldown (v : Z) (g : TrackGen) : TrackGen :=
  mkTrackGen (warmup_cols g) v (pit_left g) (edge_protect g) (elev g)
             (max_elev g) (rng g).
Definition set_pit_left (v : Z) (g : TrackGen) : TrackGen :=
  mkTrackGen (warmup_cols g) (cooldown g) v (edge_protect g) (elev g)
             (max_elev g) (rng g).
Definition set_edge_protect (v : Z) (g : TrackGen) : TrackGen :=
  mkTrackGen (warmup_cols g) (cooldown g) (pit_left g) v (elev g)
             (max_elev g) (rng g).
Definition set_elev (v : Z) (g : TrackGen) : TrackGen :=
  mkTrackGen (warmup_cols g) (cooldown g) (pit_left g) (edge_protect g) v
             (max_elev g) (rng g).
Definition set_rng (v : Random) (g : TrackGen) : TrackGen :=
  mkTrackGen (warmup_cols g) (cooldown g) (pit_left g) (edge_protect g)
             (elev g) (max_elev g) v.

(** [if self.edge_protect > 0: self.edge_protect -= 1] *)
Definition dec_edge_protect (g : TrackGen) : TrackGen :=
  if 0 <? edge_protect g then set_edge_protect (edge_protect g - 1) g else g.

(** [TrackGen._step_event]: choose up or down, then move one level. *)
Definition _step_event (g : TrackGen) : TrackGen :=
  let '(up, r) :=
    if elev g =? 0 then (true, rng g)
    else if max_elev g <=? elev g then (false, rng g)
    else let '(u, r) := random (rng g) in (Py.ltb u STEP_UP_BIAS, r) in
  set_elev (elev g + (if up then 1 else -1)) (set_rng r g).

(** [TrackGen.next_cell]: one column, the optional enemy marker and the
    mutated generator. *)
Definition next_cell (g : TrackGen) (speed_cols_per_frame : Q)
  : option (output * TrackGen) :=
  if 0 <? warmup_cols g then
    let g := set_warmup_cols (warmup_cols g - 1) g in
    Some (((Ground, elev g), None), g)
  else if 0 <? pit_left g then
    let g := set_pit_left (pit_left g - 1) g in
    let g :=
      if pit_left g =? 0 then
        set_edge_protect EDGE_BUFFER
          (set_cooldown (min_spacing speed_cols_per_frame) g)
      else g in
    Some (((Pit, elev g), None), g)
  else if 0 <? cooldown g then
    let g := dec_edge_protect (set_cooldown (cooldown g - 1) g) in
    Some (((Ground, elev g), None), g)
  else
    (* physics limits *)
    let J := max_jump_columns speed_cols_per_frame in
    let pit_cap := Z.max PIT_MIN (Z.min PIT_MAX (J - 2)) in
    let can_pit := PIT_MIN <=? pit_cap in
    let can_cone := edge_protect g =? 0 in
    let '(r, rnd) := random (rng g) in
    let g := set_rng rnd g in
    (* Steps *)
    if Py.ltb r STEP_RATE then
      let g := _step_event g in
      let g := set_edge_protect EDGE_BUFFER
                 (set_cooldown (min_spacing speed_cols_per_frame) g) in
      Some (((Ground, elev g), None), g)
    else
    let '(r, rnd) := random (rng g) in
    let g := set_rng rnd g in
    if can_pit && Py.ltb r PIT_RATE then
      match randint PIT_MIN pit_cap (rng g) with
      | None => None
      | Some (w, rnd) =>
          let g := set_pit_left (w - 1) (set_rng rnd g) in
          Some (((Pit, elev g), None), g)
      end
    else
    let '(r, rnd) := random (rng g) in
    let g := set_rng rnd g in
    if can_cone && Py.ltb r CONE_RATE then
      let g := set_cooldown (min_spacing speed_cols_per_frame) g in
      Some (((Cone, elev g), None), g)
    else
    let '(r, rnd) := random (rng g) in
    let g := set_rng rnd g in
    if Py.ltb r ENEMY_RATE then
      let g := set_cooldown (min_spacing speed_cols_per_frame) g in
      Some (((Ground, elev g), Some Fly), g)
    else
      let g := dec_edge_protect g in
      Some (((Ground, elev g), None), g).

(** Successive calls of [next_cell], one speed per call. *)
Fixpoint next_cells (g : TrackGen) (speeds : list Q)
  : option (list output * TrackGen) :=
  match speeds with
  | [] => Some ([], g)
  | s :: rest =>
      match next_cell g s with
      | None => None
      | Some (o, g1) =>
          match next_cells g1 rest with
          | None => None
          | Some (os, g2) => Some (o :: os, g2)
          end
      end
  end.

(** [TrackGen.advance]: [n] columns at one speed; the cells and the
    enemy markers are collected in two lists. *)
Fixpoint advance_loop (n : nat) (speed_cols_per_frame : Q) (g : TrackGen)
  (cells : list column) (enemies : list enemy_marker)
  : option (list column * list enemy_marker * TrackGen) :=
  match n with
  | O => Some (cells, enemies, g)
  | S n' =>
      match next_cell g speed_cols_per_frame with
      | None => None
      | Some ((c, enemy), g1) =>
          advance_loop n' speed_cols_per_frame g1 (cells ++ [c])
            (match enemy with
             | Some e => enemies ++ [e]
             | None => enemies
             end)
      end
  end.

Definition advance (n : Z) (speed_cols_per_frame : Q) (g : TrackGen)
  : option (list column * list enemy_marker * TrackGen) :=
  advance_loop (Z.to_nat n) speed_cols_per_frame g [] [].

(** [warmup_cols] as [main] computes it for a screen of width [w]. *)
Definition main_warmup_cols (w : Z) : Z :=
  Py.int (SAFE_START_SEC * START_SPEED * inject_Z FPS)%Q + w.

(** *** Reading a generated track *)

(** A column is plain ground when it is a ground cell without an enemy
    marker at the elevation of the column before it. *)
Definition plain_ground (prev_elev : Z) (o : output) : bool :=
  match o with
  | ((Ground, e), None) => e =? prev_elev
  | _ => false
  end.

(** The number of plain-ground columns before the first hazard column of
    a track that follows a column of elevation [prev_elev]; [None] when
    the track has no hazard. *)
Fixpoint first_hazard (prev_elev : Z) (outs : list output) : option nat :=
  match outs with
  | [] => None
  | o :: rest =>
      if plain_ground prev_elev o
      then option_map S (first_hazard (snd (fst o)) rest)
      else Some O
  end.

(** The columns of [next_cells], without the generator. *)
Definition columns_of (r : option (list output * TrackGen)) : list output :=
  match r with
  | Some (os, _) => os
  | None => []
  end.

(** The enemy markers of a track. *)
Fixpoint markers (os : list output) : list enemy_marker :=
  match os with
  | [] => []
  | (_, Some e) :: rest => e :: markers rest
  | (_, None) :: rest => markers rest
  end.

(** The hazard categories of the new-hazard roll, in their order. *)
Inductive hazard := StepH | PitH | ConeH | EnemyH.

(** The category that fired on a column, read from the output. *)
Definition fired (prev_elev : Z) (o : output) : option hazard :=
  match o with
  | ((Pit, _), _) => Some PitH
  | ((Cone, _), _) => Some ConeH
  | ((Ground, _), Some _) => Some EnemyH
  | ((Ground, e), None) => if e =? prev_elev then None else Some StepH
  end.

(** The generator is at the new-hazard roll: no warm-up, pit or
    cooldown is pending. *)
Definition rolling (g : TrackGen) : Prop :=
  warmup_cols g <= 0 /\ pit_left g <= 0 /\ cooldown g <= 0.

(** The number of draws a call made. *)
Definition draws (g g' : TrackGen) : Z :=
  Z.of_nat (cursor (rng g')) - Z.of_nat (cursor (rng g)).

(** The [i]-th value [random()] would return from [g] on. *)
Definition nth_random (g : TrackGen) (i : nat) : Q :=
  Qmake (tape (rng g) (cursor (rng g) + i)%nat mod 2 ^ 53) (2 ^ 53).

(** ** Vehicle physics *)

Module Player.

Record t := mk {
  x : Z;
  y : Q;
  vy : Q;
  on_ground : bool;
  jump_buffer : bool
}.

(** [Player.__init__] *)
Definition init (surface_row x0 : Z) : t :=
  {| x := x0; y := inject_Z surface_row; vy := 0; on_ground := true;
     jump_buffer := false |}.

Definition request_jump (p : t) : t :=
  mk (x p) (y p) (vy p) (on_ground p) true.

(** [Player.update] *)
Definition update (p : t) (surface_row : Z) (dt : Q) : t :=
  let p :=
    if jump_buffer p && on_ground p
    then mk (x p) (y p) JUMP_VEL false false
    else p in
  if negb (on_ground p) then
    let y1 := (y p - vy p * dt)%Q in
    let vy1 := (vy p - GRAVITY * dt)%Q in
    if Py.geb y1 (inject_Z surface_row)
    then mk (x p) (inject_Z surface_row) 0 true (jump_buffer p)
    else mk (x p) y1 vy1 (on_ground p) (jump_buffer p)
  else mk (x p) (inject_Z surface_row) (vy p) (on_ground p) (jump_buffer p).

(** [n] frames over one surface row. *)
Fixpoint updates (n : nat) (p : t) (surface_row : Z) (dt : Q) : t :=
  match n with
  | O => p
  | S n' => update (updates n' p surface_row dt) surface_row dt
  end.

End Player.

(** [frame_time = 1.0 / FPS] *)
Definition frame_time : Q := 1 / inject_Z FPS.

(** ** Collision rules of the frame loop *)

Definition rects_overlap (ax ay aw ah bx by_ bw bh : Z) : bool :=
  (ax <? bx + bw) && (bx <? ax + aw) && (ay <? by_ + bh) && (by_ <? ay + ah).

(** Entries of the [bullets] and [enemies] lists. *)
Record Bullet := mkBullet { b_x : Q; b_y : Z }.
Record Enemy := mkEnemy { e_x : Q; e_y : Z; e_shim : Z }.

(** The box test of the bullet loop, after rounding the positions. *)
Definition bullet_hits (e : Enemy) (b : Bullet) : bool :=
  let ex := Py.round (e_x e) in
  let ey := Py.round (inject_Z (e_y e)) in
  let bx := Py.round (b_x b) in
  let by_ := Py.round (inject_Z (b_y b)) in
  rects_overlap bx by_ 1 1 ex ey ENEMY_WIDTH ENEMY_HEIGHT.

(** The inner loop [for b in bullets] for one enemy: the first bullet
    that overlaps it is moved to column [w + 999] in place and the loop
    breaks; [None] when no bullet overlaps. *)
Fixpoint first_hit (w : Z) (e : Enemy) (bullets : list Bullet)
  : option (list Bullet) :=
  match bullets with
  | [] => None
  | b :: bs =>
      if bullet_hits e b
      then Some (mkBullet (inject_Z (w + 999)) (b_y b) :: bs)
      else option_map (cons b) (first_hit w e bs)
  end.

(** The outer loop [for e in enemies], threading the bullets, the score
    and the [kept] list. *)
Fixpoint hit_loop (w : Z) (enemies : list Enemy) (bullets : list Bullet)
  (score : Z) (kept : list Enemy) : list Enemy * list Bullet * Z :=
  match enemies with
  | [] => (kept, bullets, score)
  | e :: es =>
      match first_hit w e bullets with
      | Some bullets' => hit_loop w es bullets' (score + ENEMY_SCORE) kept
      | None => hit_loop w es bullets score (kept ++ [e])
      end
  end.

(** [bullets = [b for b in bullets if b['x'] < w]] *)
Definition prune_bullets (w : Z) (bullets : list Bullet) : list Bullet :=
  filter (fun b => Py.ltb (b_x b) (inject_Z w)) bullets.

(** The block "bullet vs enemy" of [main], entered with the bullets
    already pruned to the screen. *)
Definition bullet_vs_enemy (w : Z) (enemies : list Enemy)
  (bullets : list Bullet) (score : Z) : list Enemy * list Bullet * Z :=
  let '(kept, bullets', score') :=
    hit_loop w enemies (prune_bullets w bullets) score [] in
  (kept, prune_bullets w bullets', score').

(** The enemy lies left of the column where spent bullets are parked. *)
Definition left_of_parking (w : Z) (e : Enemy) : Prop :=
  Py.round (e_x e) + ENEMY_WIDTH <= w + 999.

(** The enemies of one frame before the bullet test: flies spawned at
    the right edge for the markers of the new columns, every enemy
    shifted with the world by [cols], the shimmy, and the pruning of
    the enemies that left the screen on the left. *)
Definition spawn (w enemy_top : Z) : Enemy :=
  mkEnemy (inject_Z (w - ENEMY_WIDTH)) enemy_top 1.

Definition shift (cols : Z) (e : Enemy) : Enemy :=
  mkEnemy (e_x e - inject_Z cols) (e_y e) (e_shim e).

Definition shimmy (e : Enemy) : Enemy :=
  mkEnemy (e_x e + ENEMY_SHIM_PER_FRAME * inject_Z (e_shim e)) (e_y e)
          (e_shim e * -1).

Definition move_enemies (w cols enemy_top : Z) (sp_enemies : list enemy_marker)
  (enemies : list Enemy) : list Enemy :=
  let enemies :=
    if 0 <? cols
    then map (shift cols)
           (enemies ++ map (fun _ => spawn w enemy_top) sp_enemies)
    else enemies in
  filter (fun e => Py.gtb (e_x e + inject_Z ENEMY_WIDTH) 0)
         (map shimmy enemies).

(** Where the motion above keeps an enemy on a screen of width [w]: at
    most at the spawn column before a shimmy to the right, at most 0.35
    further before a shimmy to the left. *)
Definition on_track (w : Z) (e : Enemy) : Prop :=
  (e_shim e = 1 /\ (e_x e <= inject_Z (w - ENEMY_WIDTH))%Q)
  \/ (e_shim e = -1
      /\ (e_x e <= inject_Z (w - ENEMY_WIDTH) + ENEMY_SHIM_PER_FRAME)%Q).

(** [on_ground = abs(player.y - surface_row) < 0.51] of the frame loop. *)
Definition near_surface (y : Q) (surface_row : Z) : bool :=
  Py.ltb (Qabs (y - inject_Z surface_row)) (51 # 100).

(** The step-up wall test of [main] for a player at height [y] over a
    column of elevation [elev_here] followed by one of elevation
    [elev_next]. *)
Definition step_wall (base_row elev_here elev_next : Z) (y : Q) : bool :=
  let surface_row := base_row - elev_here in
  let on_ground := near_surface y surface_row in
  let next_surface_row := base_row - elev_next in
  on_ground && (elev_here <? elev_next)
  && Py.gtb y (inject_Z next_surface_row - (1 # 100)).

(** [visible[i][1]] for a Python index [i], negative indices counting
    from the end; [None] stands for [IndexError]. *)
Definition elev_at (visible : list column) (i : Z) : option Z :=
  let n := Z.of_nat (length visible) in
  let j := if i <? 0 then i + n else i in
  if (j <? 0) || (n <=? j) then None
  else option_map snd (nth_error visible (Z.to_nat j)).

(** The step-up wall test as the frame loop runs it on the visible
    window, for a player at integer column [player_x]. *)
Definition step_wall_frame (visible : list column) (w base_row player_x : Z)
  (y : Q) : option bool :=
  let car_col := Py.clamp player_x 0 (w - 1) in
  let next_col := Py.clamp (car_col + 1) 0 (w - 1) in
  match visible with
  | [] => Some (step_wall base_row 0 0 y)
  | _ =>
      match elev_at visible car_col, elev_at visible next_col with
      | Some elev_here, Some elev_next =>
          Some (step_wall base_row elev_here elev_next y)
      | _, _ => None
      end
  end.

(** *** The closed form of a jump

    Height above the surface and vertical velocity [k] frames after
    take-off, for the frame time [1/FPS]:
    [height k = k/3 - (11/900) k (k - 1)] and [velocity k = 10 - (22/30) k]. *)
Definition height (k : Z) : Q := Qmake (k * (311 - 11 * k)) 900.
Definition velocity (k : Z) : Q := Qmake (300 - 22 * k) 30.

(** *** Reading the bullet list *)

(** A bullet in play: left of the right screen edge. *)
Definition live (w : Z) (b : Bullet) : bool := Py.ltb (b_x b) (inject_Z w).

(** A spent bullet: parked at column [w + 999]. *)
Definition parked (w : Z) (b : Bullet) : Prop := b_x b = inject_Z (w + 999).

(** Every bullet of the list is in play or parked. *)
Definition tidy (w : Z) (bullets : list Bullet) : Prop :=
  Forall (fun b => live w b = true \/ parked w b) bullets.

(** *** Generator counters *)

(** The counters of a generator are within the ranges the code keeps
    them in. *)
Definition counters_ok (g : TrackGen) : Prop :=
  0 <= warmup_cols g /\ 0 <= cooldown g
  /\ 0 <= pit_left g < PIT_MAX
  /\ 0 <= edge_protect g <= EDGE_BUFFER.

(** ** More of the frame loop *)

Definition GROUND_PAD : Z := 2.
Definition CAR_X_FRACTION : Q := 14 # 100.
Definition BULLET_SPEED_COLS : Q := 3.

(** The car and its bounding box. *)
Definition CAR_ART : list String.string :=
  ["  __"%string; "_/__\_"%string; "o    o"%string].
Definition CAR_H : Z := Z.of_nat (length CAR_ART).
Definition CAR_W : Z :=
  Z.of_nat (fold_right Nat.max 0%nat (map String.length CAR_ART)).

(** The values [layout()] returns for a terminal of [h] rows and [w]
    columns. *)
Record Layout := mkLayout {
  lay_h : Z;
  lay_w : Z;
  ground_row : Z;
  base_row : Z;
  eff_max_elev : Z;
  car_x : Z
}.

Definition layout (h w : Z) : Layout :=
  let ground_row := h - 1 - GROUND_PAD in
  (* ensure vertical room for MAX_ELEV *)
  let eff_max_elev := Z.max 0 (Z.min MAX_ELEV (ground_row - 3)) in
  let base_row := ground_row - 1 in
  let car_x := Py.int (inject_Z w * CAR_X_FRACTION)%Q in
  mkLayout h w ground_row base_row eff_max_elev car_x.

(** The world scroll of a frame, on the accumulator: the distance of
    the frame is added and the whole columns are taken out. *)
Definition scroll (scroll_acc current_speed : Q) : Q * Z :=
  let scroll_acc := (scroll_acc + current_speed)%Q in
  let cols := Py.int scroll_acc in
  if 0 <? cols then ((scroll_acc - inject_Z cols)%Q, cols)
  else (scroll_acc, cols).

(** [for _ in range(cols): if visible: visible.popleft()] *)
Definition popleft_n (cols : Z) (visible : list column) : list column :=
  skipn (Z.to_nat cols) visible.

(** [visible.extend(cells)] on a [deque(maxlen=w)]: what does not fit
    falls off on the left. *)
Definition extend (w : Z) (visible cells : list column) : list column :=
  let l := visible ++ cells in
  skipn (length l - Z.to_nat w) l.

(** The world scroll of a frame on the visible window and the track:
    the new window, the generator, the accumulator, the columns
    scrolled and the enemy markers of the new columns. *)
Definition world_scroll (w : Z) (visible : list column) (track : TrackGen)
  (scroll_acc current_speed : Q)
  : option (list column * TrackGen * Q * Z * list enemy_marker) :=
  let '(acc, cols) := scroll scroll_acc current_speed in
  if 0 <? cols then
    match advance cols current_speed track with
    | None => None
    | Some (cells, sp_enemies, track') =>
        Some (extend w (popleft_n cols visible) cells, track', acc, cols,
              sp_enemies)
    end
  else Some (visible, track, acc, cols, []).

(** The bullets of a frame: each moves right, and those that reached the
    right edge are dropped. *)
Definition move_bullets (w : Z) (bullets : list Bullet) : list Bullet :=
  prune_bullets w
    (map (fun b => mkBullet (b_x b + BULLET_SPEED_COLS) (b_y b)) bullets).

(** The lethal terrain test of the frame loop. *)
Definition lethal_terrain (cell_here : cell) (y : Q) (surface_row : Z)
  : bool :=
  near_surface y surface_row
  && match cell_here with
     | Pit | Cone => true
     | Ground => false
     end.

(** The enemy-against-car test of the frame loop, for one enemy and for
    the list. *)
Definition car_hits (player_x : Z) (y : Q) (e : Enemy) : bool :=
  let cx := player_x in
  let car_bottom := Py.round y in
  let car_top := car_bottom - (CAR_H - 1) in
  rects_overlap cx car_top CAR_W CAR_H
    (Py.round (e_x e)) (Py.round (inject_Z (e_y e)))
    ENEMY_WIDTH ENEMY_HEIGHT.

Definition enemy_vs_car (player_x : Z) (y : Q) (enemies : list Enemy)
  : bool :=
  existsb (car_hits player_x y) enemies.

(** [l1] is [l2] with some elements left out, in the same order. *)
Inductive sublist {A : Type} : list A -> list A -> Prop :=
| sublist_nil : sublist [] []
| sublist_skip : forall x l1 l2, sublist l1 l2 -> sublist l1 (x :: l2)
| sublist_keep : forall x l1 l2, sublist l1 l2 -> sublist (x :: l1) (x :: l2).

(** ** Sample inputs *)

(** A tape that plays the listed outcomes and then repeats [d]. *)
Definition tape_of (l : list Z) (d : Z) : nat -> Z := fun n => nth n l d.

(** Raw outcome for which [random()] is [0.5], above every rate. *)
Definition HI : Z := 2 ^ 52.
(** Raw outcome for which [random()] is [0.0], below every rate. *)
Definition LO : Z := 0.

(** A generator past its warm-up, at the roll, reading tape [l]. *)
Definition ready (max_elevation : Z) (l : list Z) : TrackGen :=
  TrackGen_init 80 0 max_elevation (mkRandom (tape_of l HI) 0).

(** The speed 0.1 columns per frame, where the jump covers 3 columns. *)
Definition slow : Q := 1 # 10.

(** A cone on the first roll, a fly on the second. *)
Definition cone_then_fly : TrackGen := ready 10 [HI; HI; LO; HI; HI; HI; LO].

(** [cone_then_fly] after the cone column, *)
Definition after_cone : TrackGen :=
  mkTrackGen 0 3 0 0 0 10 (mkRandom (tape_of [HI; HI; LO; HI; HI; HI; LO] HI) 3).

(** and after five more columns. *)
Definition after_fly : TrackGen :=
  mkTrackGen 0 2 0 0 0 10 (mkRandom (tape_of [HI; HI; LO; HI; HI; HI; LO] HI) 7).

(** A pit on the first roll, of the least width [randint] can return. *)
Definition pit_at_roll : TrackGen := ready 10 [HI; LO; 0].

(** A flat world ([max_elev = 0]) whose first roll is a step. *)
Definition flat_step : TrackGen := ready 0 [LO].

(** [flat_step] after that column. *)
Definition after_flat_step : TrackGen :=
  mkTrackGen 0 3 0 4 1 0 (mkRandom (tape_of [LO] HI) 1).

(** A step on the first roll, from elevation 0. *)
Definition step_at_roll : TrackGen := ready 10 [LO].

(** A cone on the first roll, *)
Definition cone_at_roll : TrackGen := ready 10 [HI; HI; LO].

(** and the generator after that column. *)
Definition after_cone_at_roll : TrackGen :=
  mkTrackGen 0 3 0 0 0 10 (mkRandom (tape_of [HI; HI; LO] HI) 3).

(** A fly at column 10, rows 5 to 7, and two bullets inside its box. *)
Definition fly_at_10 : Enemy := mkEnemy 10 5 1.
Definition two_bullets : list Bullet := [mkBullet 12 6; mkBullet 13 6].

(** [pit_at_roll] after the first pit column: two more are pending. *)
Definition after_pit_start : TrackGen :=
  mkTrackGen 0 0 2 0 0 10 (mkRandom (tape_of [HI; LO; 0] HI) 3).

(** A step on the first roll at the slow speed; the cone trial succeeds
    on the fourth column after it, where the edge protection still
    holds, and again on the fifth. *)
Definition step_then_cone : TrackGen :=
  ready 10 [LO; HI; HI; LO; HI; HI; HI; LO].

(** [step_then_cone] after the step column, *)
Definition after_step : TrackGen :=
  mkTrackGen 0 3 0 4 1 10
    (mkRandom (tape_of [LO; HI; HI; LO; HI; HI; HI; LO] HI) 1).

(** and after five more columns, the last one a cone. *)
Definition after_step_cone : TrackGen :=
  mkTrackGen 0 3 0 0 1 10
    (mkRandom (tape_of [LO; HI; HI; LO; HI; HI; HI; LO] HI) 8).

(** A pit of eight columns on the first roll at the start speed, *)
Definition wide_pit_at_roll : TrackGen := ready 10 [HI; LO; 5].

(** and the generator after its first column. *)
Definition after_wide_pit_start : TrackGen :=
  mkTrackGen 0 0 7 0 0 10 (mkRandom (tape_of [HI; LO; 5] HI) 3).

(** The player one frame after a jump request on row 20. *)
Definition first_jump_frame : Player.t :=
  Player.update (Player.request_jump (Player.init 20 5)) 20 frame_time.

(** * Proofs *)

(** ** Truncation and the jump envelope *)

Lemma int_mono (x y : Q) : (x <= y)%Q -> Py.int x <= Py.int y.
Proof.
  destruct x as [a b], y as [c d]. unfold Qle, Py.int. cbn [Qnum Qden].
  intros H.
  rewrite <- (Z.quot_mul_cancel_r a (Zpos b) (Zpos d)) by lia.
  rewrite <- (Z.quot_mul_cancel_r c (Zpos d) (Zpos b)) by lia.
  rewrite (Z.mul_comm (Zpos d) (Zpos b)).
  apply Z.quot_le_mono; lia.
Qed.

Lemma int_inject_mul (j n : Z) (d : positive) :
  Py.int (inject_Z j * (n # d))%Q = Z.quot (j * n) (Zpos d).
Proof. unfold Py.int. cbn. reflexivity. Qed.

Lemma min_spacing_quot (s : Q) :
  min_spacing s = Z.quot (max_jump_columns s * 12) 10.
Proof. unfold min_spacing, SPACING_FACTOR. apply int_inject_mul. Qed.

Lemma max_jump_columns_ge_3 (s : Q) : 3 <= max_jump_columns s.
Proof. unfold max_jump_columns. lia. Qed.

Lemma min_spacing_div (s : Q) :
  min_spacing s = max_jump_columns s * 12 / 10.
Proof.
  rewrite min_spacing_quot.
  pose proof (max_jump_columns_ge_3 s).
  apply Z.quot_div_nonneg; lia.
Qed.

Lemma min_spacing_ge_3 (s : Q) : 3 <= min_spacing s.
Proof.
  rewrite min_spacing_div.
  pose proof (max_jump_columns_ge_3 s).
  apply Z.div_le_lower_bound; lia.
Qed.

(** C4, as stated: strictness fails at low speed.  At 0.1 columns per
    frame the jump covers 3 columns and the spacing is [int(3.6) = 3]. *)
Lemma min_spacing_not_strict :
  ~ (forall s : Q, (0 < s)%Q ->
       max_jump_columns s < min_spacing s /\ 3 <= max_jump_columns s).
Proof.
  intros H. destruct (H (1 # 10)%Q) as [Hlt _]; [reflexivity|].
  vm_compute in Hlt. discriminate.
Qed.

(** C4, amended: for every speed [s > 0], [max_jump_columns s] is at
    least 3 and [min_spacing s] is at least [max_jump_columns s]; it is
    strictly greater exactly when [max_jump_columns s] is 5 or more. *)
Theorem min_spacing_ge_max_jump (s : Q) :
  (0 < s)%Q ->
  3 <= max_jump_columns s
  /\ max_jump_columns s <= min_spacing s
  /\ (max_jump_columns s <? min_spacing s) = (5 <=? max_jump_columns s).
Proof.
  intros _. rewrite min_spacing_div.
  pose proof (max_jump_columns_ge_3 s) as H3.
  set (J := max_jump_columns s) in *.
  pose proof (Z.div_mod (J * 12) 10 ltac:(lia)) as Hd.
  pose proof (Z.mod_pos_bound (J * 12) 10 ltac:(lia)) as Hm.
  repeat split; lia.
Qed.

Lemma min_spacing_ge_max_jump_witness :
  (0 < 1)%Q
  /\ 3 <= max_jump_columns 1
  /\ max_jump_columns 1 <= min_spacing 1
  /\ (max_jump_columns 1 <? min_spacing 1) = (5 <=? max_jump_columns 1).
Proof.
  split; [reflexivity | apply (min_spacing_ge_max_jump 1); reflexivity].
Defined.

(** C10: both envelope functions are monotone non-decreasing in the
    speed. *)
Theorem envelope_monotone (s1 s2 : Q) :
  (s1 <= s2)%Q ->
  max_jump_columns s1 <= max_jump_columns s2
  /\ min_spacing s1 <= min_spacing s2.
Proof.
  intros H.
  assert (HJ : max_jump_columns s1 <= max_jump_columns s2).
  { unfold max_jump_columns.
    apply Z.max_le_compat_l, int_mono.
    repeat apply Qmult_le_compat_r; try assumption; discriminate. }
  split; [exact HJ|].
  rewrite !min_spacing_div.
  apply Z.div_le_mono; lia.
Qed.

Lemma envelope_monotone_witness :
  (1 <= 2)%Q
  /\ max_jump_columns 1 <= max_jump_columns 2
  /\ min_spacing 1 <= min_spacing 2.
Proof.
  split; [discriminate | apply (envelope_monotone 1 2); discriminate].
Defined.

(** ** The track generator *)

Ltac split_ifs :=
  repeat match goal with
    | |- context [if ?c then _ else _] => destruct c eqn:?
    | H : context [if ?c then _ else _] |- _ => destruct c eqn:?
    end.

Lemma Some_pair_inv {A B : Type} (a c : A) (b d : B) :
  Some (a, b) = Some (c, d) -> a = c /\ b = d.
Proof. intros [= -> ->]. auto. Qed.

Ltac open_next_cell :=
  unfold next_cell, random, randint; cbv beta iota zeta.

Lemma pit_cap_ge_min (J : Z) : PIT_MIN <= Z.max PIT_MIN (Z.min PIT_MAX (J - 2)).
Proof. lia. Qed.

(** [next_cell] never raises: [randint] is only called on a non-empty
    range. *)
Lemma next_cell_total (g : TrackGen) (s : Q) :
  exists o g', next_cell g s = Some (o, g').
Proof.
  open_next_cell.
  pose proof (pit_cap_ge_min (max_jump_columns s)) as Hcap.
  split_ifs; try (eexists; eexists; reflexivity).
  lia.
Qed.

Lemma next_cells_total (speeds : list Q) :
  forall g, exists os g', next_cells g speeds = Some (os, g').
Proof.
  induction speeds as [|s rest IH]; intros g; cbn [next_cells].
  - eauto.
  - destruct (next_cell_total g s) as (o & g1 & ->).
    destruct (IH g1) as (os & g2 & ->). eauto.
Qed.

Lemma next_cells_length (speeds : list Q) :
  forall g os g', next_cells g speeds = Some (os, g') ->
  length os = length speeds.
Proof.
  induction speeds as [|s rest IH]; intros g os g'; cbn [next_cells].
  - intros [= <- _]. reflexivity.
  - destruct (next_cell g s) as [[o g1]|]; [|discriminate].
    destruct (next_cells g1 rest) as [[os1 g2]|] eqn:E; [|discriminate].
    intros [= <- _]. cbn. f_equal. eapply IH, E.
Qed.

Lemma step_event_elev (g : TrackGen) :
  elev (_step_event g) = elev g + 1 \/ elev (_step_event g) = elev g - 1.
Proof.
  unfold _step_event, random. split_ifs; cbn; auto.
Qed.

Lemma step_event_frame (g : TrackGen) :
  warmup_cols (_step_event g) = warmup_cols g
  /\ cooldown (_step_event g) = cooldown g
  /\ pit_left (_step_event g) = pit_left g
  /\ edge_protect (_step_event g) = edge_protect g
  /\ max_elev (_step_event g) = max_elev g.
Proof.
  unfold _step_event, random. split_ifs; cbn; auto.
Qed.

Ltac fields :=
  cbn [warmup_cols cooldown pit_left edge_protect elev max_elev rng
       set_warmup_cols set_cooldown set_pit_left set_edge_protect set_elev
       set_rng consume cursor tape fst snd] in *.

Lemma dec_edge_protect_frame (g : TrackGen) :
  warmup_cols (dec_edge_protect g) = warmup_cols g
  /\ cooldown (dec_edge_protect g) = cooldown g
  /\ pit_left (dec_edge_protect g) = pit_left g
  /\ elev (dec_edge_protect g) = elev g
  /\ max_elev (dec_edge_protect g) = max_elev g
  /\ rng (dec_edge_protect g) = rng g.
Proof. unfold dec_edge_protect. split_ifs; fields; auto 7. Qed.

(** While the cooldown runs the generator emits plain ground and only
    counts down. *)
Lemma cooldown_column (g : TrackGen) (s : Q) :
  warmup_cols g <= 0 -> pit_left g <= 0 -> 0 < cooldown g ->
  exists g',
    next_cell g s = Some (((Ground, elev g), None), g')
    /\ warmup_cols g' = warmup_cols g /\ pit_left g' = pit_left g
    /\ cooldown g' = cooldown g - 1 /\ elev g' = elev g.
Proof.
  intros Hw Hp Hc. unfold next_cell.
  destruct (Z.ltb_spec 0 (warmup_cols g)); [lia|].
  destruct (Z.ltb_spec 0 (pit_left g)); [lia|].
  destruct (Z.ltb_spec 0 (cooldown g)); [|lia].
  cbv zeta.
  destruct (dec_edge_protect_frame (set_cooldown (cooldown g - 1) g))
    as (E1 & E2 & E3 & E4 & _).
  eexists. split; [rewrite E4; reflexivity|]. fields. auto.
Qed.

(** A pending cooldown of [c] columns keeps the next [c] columns plain. *)
Lemma cooldown_gap (speeds : list Q) :
  forall g os g' k,
    warmup_cols g <= 0 -> pit_left g <= 0 ->
    next_cells g speeds = Some (os, g') ->
    first_hazard (elev g) os = Some k ->
    cooldown g <= Z.of_nat k.
Proof.
  induction speeds as [|s rest IH]; intros g os g' k Hw Hp; cbn [next_cells].
  - intros [= <- _]. discriminate.
  - destruct (Z.le_gt_cases (cooldown g) 0) as [Hc|Hc]; [intros; lia|].
    destruct (cooldown_column g s Hw Hp) as (g1 & -> & E1 & E2 & E3 & E4);
      [lia|].
    destruct (next_cells g1 rest) as [[os1 g2]|] eqn:E; [|discriminate].
    intros [= <- _]. cbn [first_hazard plain_ground fst snd].
    rewrite Z.eqb_refl.
    destruct (first_hazard (elev g) os1) as [k1|] eqn:F; [|discriminate].
    intros [= <-]. rewrite <- E4 in F.
    specialize (IH g1 os1 g2 k1 ltac:(lia) ltac:(lia) E F). lia.
Qed.

(** The column that ends a hazard re-arms the cooldown. *)
Lemma hazard_end_rearms (g : TrackGen) (s : Q) (o : output) (g1 : TrackGen) :
  next_cell g s = Some (o, g1) ->
  plain_ground (elev g) o = false ->
  pit_left g1 <= 0 ->
  warmup_cols g1 <= 0 /\ cooldown g1 = min_spacing s
  /\ snd (fst o) = elev g1.
Proof.
  unfold next_cell, random, randint, dec_edge_protect. cbv beta iota zeta.
  pose proof (pit_cap_ge_min (max_jump_columns s)) as Hcap.
  set (cap := Z.max PIT_MIN (Z.min PIT_MAX (max_jump_columns s - 2))) in *.
  intros H Hz Hp.
  split_ifs; try discriminate;
    apply Some_pair_inv in H; destruct H as [<- <-];
    unfold plain_ground in Hz; fields;
    rewrite ?Z.eqb_refl in Hz; try discriminate; try (repeat split; lia).
  - (* step *)
    match goal with |- context [_step_event ?g0] =>
      destruct (step_event_frame g0) as (E1 & _) end.
    fields. repeat split; lia.
  - (* first pit column *)
    match goal with H : context [?a mod ?b] |- _ =>
      pose proof (Z.mod_pos_bound a b ltac:(lia)) end.
    assert (PIT_MIN = 3) by reflexivity. lia.
Qed.

(** The tight form of the spacing invariant: after the column that ends
    a hazard, at least [min_spacing s] columns of plain ground precede
    the next hazard column. *)
Lemma hazard_gap_tight (g : TrackGen) (s : Q) (o : output) (g1 : TrackGen)
  (speeds : list Q) (os : list output) (g2 : TrackGen) (k : nat) :
  next_cell g s = Some (o, g1) ->
  plain_ground (elev g) o = false ->
  pit_left g1 <= 0 ->
  next_cells g1 speeds = Some (os, g2) ->
  first_hazard (snd (fst o)) os = Some k ->
  min_spacing s <= Z.of_nat k.
Proof.
  intros H Hz Hp Hn Hf.
  destruct (hazard_end_rearms g s o g1 H Hz Hp) as (Hw & Hc & He).
  rewrite He in Hf. rewrite <- Hc.
  exact (cooldown_gap speeds g1 os g2 k Hw Hp Hn Hf).
Qed.

(** C2: let a call of [next_cell] at speed [s] emit the last column of a
    hazard (a pit, cone, step or enemy-marker column after which no pit
    is pending).  The call re-arms the cooldown to [min_spacing s], and
    in every continuation of the track, whatever the speeds passed, the
    number [k] of plain-ground columns before the first column of the
    next hazard is at least [min_spacing s - 1]. *)
Theorem hazard_spacing (g : TrackGen) (s : Q) (o : output) (g1 : TrackGen)
  (speeds : list Q) (os : list output) (g2 : TrackGen) (k : nat) :
  next_cell g s = Some (o, g1) ->
  plain_ground (elev g) o = false ->
  pit_left g1 <= 0 ->
  next_cells g1 speeds = Some (os, g2) ->
  first_hazard (snd (fst o)) os = Some k ->
  cooldown g1 = min_spacing s /\ min_spacing s - 1 <= Z.of_nat k.
Proof.
  intros H Hz Hp Hn Hf. split.
  - apply (hazard_end_rearms g s o g1 H Hz Hp).
  - pose proof (hazard_gap_tight g s o g1 speeds os g2 k H Hz Hp Hn Hf). lia.
Qed.

Lemma hazard_spacing_witness :
  next_cell cone_then_fly slow = Some (((Cone, 0), None), after_cone)
  /\ cooldown after_cone = min_spacing slow
  /\ min_spacing slow - 1 <= Z.of_nat 3.
Proof.
  split; [reflexivity|].
  apply (hazard_spacing cone_then_fly slow ((Cone, 0), None) after_cone
           [slow; slow; slow; slow; slow]
           [((Ground, 0), None); ((Ground, 0), None); ((Ground, 0), None);
            ((Ground, 0), Some Fly); ((Ground, 0), None)]
           after_fly 3);
    reflexivity.
Defined.

(** *** [advance] is [next_cells] at one speed *)

Lemma advance_loop_next_cells (n : nat) (s : Q) :
  forall g cells enemies,
    advance_loop n s g cells enemies =
    match next_cells g (repeat s n) with
    | Some (os, g') => Some (cells ++ map fst os, enemies ++ markers os, g')
    | None => None
    end.
Proof.
  induction n as [|n IH]; intros g cells enemies; cbn [advance_loop repeat next_cells].
  - cbn. now rewrite !app_nil_r.
  - destruct (next_cell g s) as [[[c e] g1]|]; [|reflexivity].
    rewrite IH. destruct (next_cells g1 (repeat s n)) as [[os g2]|]; [|reflexivity].
    destruct e; cbn [map markers fst]; now rewrite <- !app_assoc.
Qed.

(** *** Warm-up *)

Lemma warmup_column (g : TrackGen) (s : Q) :
  0 < warmup_cols g ->
  next_cell g s =
  Some (((Ground, elev g), None), set_warmup_cols (warmup_cols g - 1) g).
Proof.
  intros H. unfold next_cell.
  destruct (Z.ltb_spec 0 (warmup_cols g)); [reflexivity | lia].
Qed.

Lemma warmup_columns (speeds : list Q) :
  forall g,
    Z.of_nat (length speeds) <= warmup_cols g ->
    next_cells g speeds =
    Some (repeat ((Ground, elev g), None) (length speeds),
          set_warmup_cols (warmup_cols g - Z.of_nat (length speeds)) g).
Proof.
  induction speeds as [|s rest IH]; intros g H; cbn [next_cells length repeat].
  - destruct g. cbn. now rewrite Z.sub_0_r.
  - cbn [length] in H. rewrite warmup_column by lia.
    rewrite IH by (fields; lia). fields.
    do 2 f_equal. unfold set_warmup_cols. fields. f_equal. lia.
Qed.

Lemma main_warmup_cols_ceiling (w : Z) :
  main_warmup_cols w =
  Qceiling (SAFE_START_SEC * START_SPEED * inject_Z FPS) + w.
Proof. reflexivity. Qed.

(** C9: a fresh generator, created as [main] does for a screen of width
    [w], emits plain ground at elevation 0 without an enemy marker for
    its first [ceil(SAFE_START_SEC * START_SPEED * FPS) + w] columns,
    whatever speeds are passed; it makes no draw meanwhile. *)
Theorem warmup_hazard_free (w max_elevation : Z) (r : Random)
  (speeds : list Q) :
  Z.of_nat (length speeds)
    <= Qceiling (SAFE_START_SEC * START_SPEED * inject_Z FPS) + w ->
  exists g',
    next_cells (TrackGen_init w (main_warmup_cols w) max_elevation r) speeds
    = Some (repeat ((Ground, 0), None) (length speeds), g')
    /\ first_hazard 0 (repeat ((Ground, 0), None) (length speeds)) = None
    /\ rng g' = r.
Proof.
  intros H. rewrite <- main_warmup_cols_ceiling in H.
  eexists. split; [|split].
  - apply (warmup_columns speeds
             (TrackGen_init w (main_warmup_cols w) max_elevation r)).
    exact H.
  - clear H. induction (length speeds) as [|n IH]; [reflexivity|].
    cbn [repeat first_hazard plain_ground fst snd]. now rewrite IH.
  - reflexivity.
Qed.

Lemma warmup_hazard_free_witness :
  exists g',
    next_cells (TrackGen_init 2 (main_warmup_cols 2) 10
                  (mkRandom (tape_of [LO] LO) 0)) [slow; 1%Q; slow]
    = Some (repeat ((Ground, 0), None) 3, g')
    /\ first_hazard 0 (repeat ((Ground, 0), None) 3) = None
    /\ rng g' = mkRandom (tape_of [LO] LO) 0.
Proof.
  apply (warmup_hazard_free 2 10 (mkRandom (tape_of [LO] LO) 0)
           [slow; 1%Q; slow]).
  vm_compute. discriminate.
Defined.

(** *** Pits *)

Lemma pit_column (g : TrackGen) (s : Q) :
  warmup_cols g <= 0 -> 0 < pit_left g ->
  exists g',
    next_cell g s = Some (((Pit, elev g), None), g')
    /\ warmup_cols g' = warmup_cols g /\ pit_left g' = pit_left g - 1
    /\ elev g' = elev g
    /\ (pit_left g' = 0 -> cooldown g' = min_spacing s).
Proof.
  intros Hw Hp. unfold next_cell.
  destruct (Z.ltb_spec 0 (warmup_cols g)); [lia|].
  destruct (Z.ltb_spec 0 (pit_left g)); [|lia].
  cbv zeta. fields.
  destruct (Z.eqb_spec (pit_left g - 1) 0) as [E|E];
    eexists; (split; [reflexivity|]); fields; repeat split; auto; lia.
Qed.

(** A pending pit of [pit_left g] columns is emitted in full. *)
Lemma pit_columns (speeds : list Q) :
  forall g,
    warmup_cols g <= 0 ->
    Z.of_nat (length speeds) <= pit_left g ->
    exists g',
      next_cells g speeds
      = Some (repeat ((Pit, elev g), None) (length speeds), g')
      /\ warmup_cols g' = warmup_cols g
      /\ pit_left g' = pit_left g - Z.of_nat (length speeds)
      /\ elev g' = elev g.
Proof.
  induction speeds as [|s rest IH]; intros g Hw Hp; cbn [next_cells length repeat].
  - exists g. repeat split; auto. cbn. lia.
  - cbn [length] in Hp.
    destruct (pit_column g s Hw) as (g1 & -> & E1 & E2 & E3 & _); [lia|].
    destruct (IH g1) as (g2 & -> & F1 & F2 & F3); [lia | lia |].
    exists g2. rewrite E3. repeat split; try congruence. lia.
Qed.

(** The width a roll draws for a new pit: between [PIT_MIN] and the cap
    [max(PIT_MIN, min(PIT_MAX, J - 2))], which is [min(PIT_MAX, J - 2)]
    as soon as the jump covers 5 columns. *)
Lemma pit_start_width (g : TrackGen) (s : Q) (e : Z) (m : option enemy_marker)
  (g1 : TrackGen) :
  rolling g ->
  next_cell g s = Some (((Pit, e), m), g1) ->
  PIT_MIN <= pit_left g1 + 1
          <= Z.max PIT_MIN (Z.min PIT_MAX (max_jump_columns s - 2))
  /\ (5 <= max_jump_columns s ->
      pit_left g1 + 1 <= Z.min PIT_MAX (max_jump_columns s - 2)).
Proof.
  intros (Hw & Hp & Hc).
  unfold next_cell, random, randint, dec_edge_protect. cbv beta iota zeta.
  pose proof (pit_cap_ge_min (max_jump_columns s)) as Hcap.
  set (cap := Z.max PIT_MIN (Z.min PIT_MAX (max_jump_columns s - 2))) in *.
  intros H.
  split_ifs; try discriminate; try lia;
    apply Some_pair_inv in H; destruct H as [H <-]; try discriminate.
  fields.
  match goal with |- context [?a mod ?b] =>
    pose proof (Z.mod_pos_bound a b ltac:(lia)) end.
  assert (PIT_MIN = 3) by reflexivity.
  assert (PIT_MAX = 9) by reflexivity.
  split; [|intros]; lia.
Qed.

(** C1, as stated: it fails at low speed.  At 0.1 columns per frame the
    jump covers 3 columns, so [min(PIT_MAX, J - 2)] is 1, below
    [PIT_MIN]; the roll is not suppressed and a pit of 3 columns is
    emitted. *)
Theorem pit_not_suppressed_at_low_speed :
  Z.min PIT_MAX (max_jump_columns slow - 2) < PIT_MIN
  /\ columns_of (next_cells pit_at_roll [slow; slow; slow; slow])
     = [((Pit, 0), None); ((Pit, 0), None); ((Pit, 0), None);
        ((Ground, 0), None)].
Proof. split; reflexivity. Qed.

(** *** Elevation *)

(** With at least one level above the base, the elevation stays within
    its bounds and moves by at most one level per column. *)
Lemma elev_in_range (g : TrackGen) (s : Q) (o : output) (g' : TrackGen) :
  1 <= max_elev g ->
  0 <= elev g <= max_elev g ->
  next_cell g s = Some (o, g') ->
  0 <= elev g' <= max_elev g' /\ max_elev g' = max_elev g.
Proof.
  intros Hm Hr.
  unfold next_cell, _step_event, random, randint, dec_edge_protect.
  cbv beta iota zeta. intros H.
  split_ifs; try discriminate;
    apply Some_pair_inv in H; destruct H as [_ <-]; fields; lia.
Qed.

(** [_step_event] moves by exactly one level; up from level 0, down from
    a level at or above [max_elev] that is not 0. *)
Lemma step_event_direction (g : TrackGen) :
  (elev (_step_event g) = elev g + 1 \/ elev (_step_event g) = elev g - 1)
  /\ (elev g = 0 -> elev (_step_event g) = 1)
  /\ (elev g <> 0 -> max_elev g <= elev g ->
      elev (_step_event g) = elev g - 1).
Proof.
  unfold _step_event, random. split_ifs; fields; lia.
Qed.

(** C5, at the failing input.  In a flat world the generator starts
    within [0, max_elev] = [0, 0]; a step event forces the direction up
    and the elevation becomes 1, above [max_elev]. *)
Theorem step_leaves_flat_world :
  0 <= elev flat_step <= max_elev flat_step
  /\ next_cell flat_step slow = Some (((Ground, 1), None), after_flat_step)
  /\ max_elev after_flat_step < elev after_flat_step.
Proof. repeat split; try reflexivity; discriminate. Qed.

(** *** The new-hazard roll *)

Lemma step_event_draws (g : TrackGen) :
  Z.of_nat (cursor (rng (_step_event g))) =
  Z.of_nat (cursor (rng g))
  + (if (elev g =? 0) || (max_elev g <=? elev g) then 0 else 1).
Proof.
  unfold _step_event, random. split_ifs; fields; cbn [orb] in *;
    try discriminate; lia.
Qed.

Lemma nth_random_eq (g : TrackGen) (i : nat) :
  nth_random g i =
  Qmake (tape (rng g) (i + cursor (rng g))%nat mod 2 ^ 53) (2 ^ 53).
Proof. unfold nth_random. now rewrite Nat.add_comm. Qed.

(** C3, as stated: the number of draws of a column at the roll is not
    the same whether or not a hazard fires.  A step firing at elevation
    0 ends the column after a single draw. *)
Lemma roll_draws_not_constant :
  ~ (forall g s o g',
       rolling g -> next_cell g s = Some (o, g') -> draws g g' = 4).
Proof.
  intros H.
  destruct (next_cell step_at_roll slow) as [[o g']|] eqn:E;
    [|discriminate].
  assert (R : rolling step_at_roll) by (repeat split; discriminate).
  specialize (H step_at_roll slow o g' R E).
  vm_compute in E. injection E as <- <-. vm_compute in H. discriminate.
Qed.

(** C3, amended: at the new-hazard roll the trials are drawn in the
    fixed order step, pit, cone, enemy, one draw each, and the column
    ends at the first trial that succeeds: the draws of the later
    categories are not made.  A step makes one further draw for its
    direction when the elevation is strictly between the bounds, and a
    pit one further draw for its width.  A column on which nothing
    fires has made exactly the four trial draws. *)
Theorem roll_draw_order (g : TrackGen) (s : Q) (o : output) (g' : TrackGen) :
  rolling g ->
  next_cell g s = Some (o, g') ->
  match fired (elev g) o with
  | Some StepH =>
      Py.ltb (nth_random g 0) STEP_RATE = true
      /\ draws g g' =
         1 + (if (elev g =? 0) || (max_elev g <=? elev g) then 0 else 1)
  | Some PitH =>
      Py.ltb (nth_random g 0) STEP_RATE = false
      /\ Py.ltb (nth_random g 1) PIT_RATE = true
      /\ draws g g' = 3
  | Some ConeH =>
      Py.ltb (nth_random g 0) STEP_RATE = false
      /\ Py.ltb (nth_random g 1) PIT_RATE = false
      /\ (edge_protect g =? 0) && Py.ltb (nth_random g 2) CONE_RATE = true
      /\ draws g g' = 3
  | Some EnemyH =>
      Py.ltb (nth_random g 0) STEP_RATE = false
      /\ Py.ltb (nth_random g 1) PIT_RATE = false
      /\ (edge_protect g =? 0) && Py.ltb (nth_random g 2) CONE_RATE = false
      /\ Py.ltb (nth_random g 3) ENEMY_RATE = true
      /\ draws g g' = 4
  | None =>
      Py.ltb (nth_random g 0) STEP_RATE = false
      /\ Py.ltb (nth_random g 1) PIT_RATE = false
      /\ (edge_protect g =? 0) && Py.ltb (nth_random g 2) CONE_RATE = false
      /\ Py.ltb (nth_random g 3) ENEMY_RATE = false
      /\ draws g g' = 4
  end.
Proof.
  intros (Hw & Hp & Hc). rewrite !nth_random_eq. cbn [Nat.add].
  unfold next_cell, random, randint, dec_edge_protect, draws.
  cbv beta iota zeta.
  pose proof (pit_cap_ge_min (max_jump_columns s)) as Hcap.
  set (cap := Z.max PIT_MIN (Z.min PIT_MAX (max_jump_columns s - 2))) in *.
  destruct (Z.ltb_spec 0 (warmup_cols g)); [lia|].
  destruct (Z.ltb_spec 0 (pit_left g)); [lia|].
  destruct (Z.ltb_spec 0 (cooldown g)); [lia|].
  destruct (Z.leb_spec PIT_MIN cap); [|lia]. cbn [andb].
  destruct (Z.ltb_spec cap PIT_MIN); [lia|].
  intros Hn.
  repeat match type of Hn with
    | context [if ?c then _ else _] => destruct c eqn:?
    end;
    apply Some_pair_inv in Hn; destruct Hn as [<- <-];
    unfold fired; fields; rewrite ?Z.eqb_refl; auto 6 with zarith.
  (* the step column *)
  match goal with |- context [_step_event ?g0] =>
    pose proof (step_event_elev g0) as He;
    pose proof (step_event_draws g0) as Hd
  end.
  fields.
  match goal with |- context [?a =? ?b] =>
    destruct (Z.eqb_spec a b) as [E|E]; [lia|] end.
  split; [reflexivity|]. rewrite Hd. lia.
Qed.

Lemma roll_draw_order_witness :
  Py.ltb (nth_random cone_at_roll 0) STEP_RATE = false
  /\ Py.ltb (nth_random cone_at_roll 1) PIT_RATE = false
  /\ (edge_protect cone_at_roll =? 0)
     && Py.ltb (nth_random cone_at_roll 2) CONE_RATE = true
  /\ draws cone_at_roll after_cone_at_roll = 3.
Proof.
  apply (roll_draw_order cone_at_roll slow ((Cone, 0), None)
           after_cone_at_roll).
  - repeat split; discriminate.
  - reflexivity.
Defined.

(** ** The step-up wall *)

Lemma Py_ltb_lt (x y : Q) : Py.ltb x y = true <-> (x < y)%Q.
Proof.
  unfold Py.ltb. rewrite negb_true_iff, <- not_true_iff_false, Qle_bool_iff.
  split; [apply Qnot_le_lt | apply Qlt_not_le].
Qed.

Lemma Py_gtb_lt (x y : Q) : Py.gtb x y = true <-> (y < x)%Q.
Proof.
  unfold Py.gtb. rewrite negb_true_iff, <- not_true_iff_false, Qle_bool_iff.
  split; [apply Qnot_le_lt | apply Qlt_not_le].
Qed.

Lemma near_surface_bounds (y : Q) (surface_row : Z) :
  near_surface y surface_row = true ->
  (inject_Z surface_row - (51 # 100) < y < inject_Z surface_row + (51 # 100))%Q.
Proof.
  unfold near_surface. rewrite Py_ltb_lt. intros H.
  apply Qabs_Qlt_condition in H. lra.
Qed.

(** A player near the surface of its column is more than 0.49 rows below
    the surface of a higher next column, far beyond the tolerance 0.01. *)
Lemma near_surface_below_step (base_row elev_here elev_next : Z) (y : Q) :
  near_surface y (base_row - elev_here) = true ->
  elev_here < elev_next ->
  (inject_Z (base_row - elev_next) + (49 # 100) < y)%Q.
Proof.
  intros Hn Hlt. apply near_surface_bounds in Hn.
  assert (Hz : (inject_Z (base_row - elev_next) + 1
                <= inject_Z (base_row - elev_here))%Q).
  { change 1%Q with (inject_Z 1). rewrite <- inject_Z_plus.
    rewrite <- Zle_Qle. lia. }
  lra.
Qed.

Lemma step_wall_true_iff (base_row elev_here elev_next : Z) (y : Q) :
  step_wall base_row elev_here elev_next y = true <->
  near_surface y (base_row - elev_here) = true
  /\ elev_here < elev_next
  /\ (inject_Z (base_row - elev_next) < y)%Q.
Proof.
  unfold step_wall. cbv zeta.
  rewrite !andb_true_iff, Z.ltb_lt, Py_gtb_lt.
  split.
  - intros [[Hn Hlt] _]. repeat split; auto.
    pose proof (near_surface_below_step _ _ _ _ Hn Hlt). lra.
  - intros (Hn & Hlt & Hy). repeat split; auto. lra.
Qed.

(** On the visible window the test can only fire between two columns
    that both exist, the second strictly higher than the first. *)
Lemma step_wall_frame_true (visible : list column) (w base_row player_x : Z)
  (y : Q) :
  step_wall_frame visible w base_row player_x y = Some true ->
  exists elev_here elev_next,
    elev_at visible (Py.clamp player_x 0 (w - 1)) = Some elev_here
    /\ elev_at visible
         (Py.clamp (Py.clamp player_x 0 (w - 1) + 1) 0 (w - 1))
       = Some elev_next
    /\ elev_here < elev_next
    /\ near_surface y (base_row - elev_here) = true
    /\ (inject_Z (base_row - elev_next) < y)%Q.
Proof.
  unfold step_wall_frame. cbv zeta.
  destruct visible as [|c cs].
  - intros [= H]. apply step_wall_true_iff in H. lia.
  - destruct (elev_at (c :: cs) (Py.clamp player_x 0 (w - 1)))
      as [eh|]; [|discriminate].
    destruct (elev_at (c :: cs)
                (Py.clamp (Py.clamp player_x 0 (w - 1) + 1) 0 (w - 1)))
      as [en|]; [|discriminate].
    intros [= H]. apply step_wall_true_iff in H.
    exists eh, en. tauto.
Qed.

(** At the right edge of the screen the next column is the column of the
    player itself and the test never fires. *)
Lemma step_wall_frame_right_edge (visible : list column) (w base_row player_x : Z)
  (y : Q) :
  0 < w -> w - 1 <= player_x ->
  step_wall_frame visible w base_row player_x y <> Some true.
Proof.
  intros Hw Hx H. apply step_wall_frame_true in H.
  destruct H as (eh & en & E1 & E2 & Hlt & _).
  assert (C1 : Py.clamp player_x 0 (w - 1) = w - 1).
  { unfold Py.clamp.
    destruct (Z.ltb_spec player_x 0); [lia|].
    destruct (Z.ltb_spec (w - 1) player_x); lia. }
  rewrite C1 in E1, E2.
  assert (C2 : Py.clamp (w - 1 + 1) 0 (w - 1) = w - 1).
  { unfold Py.clamp.
    destruct (Z.ltb_spec (w - 1 + 1) 0); [lia|].
    destruct (Z.ltb_spec (w - 1) (w - 1 + 1)); lia. }
  rewrite C2 in E2. assert (eh = en) by congruence. lia.
Qed.

(** ** Vehicle physics *)

Lemma updates_succ (n : nat) (p : Player.t) (surface_row : Z) (dt : Q) :
  Player.updates (S n) p surface_row dt
  = Player.update (Player.updates n p surface_row dt) surface_row dt.
Proof. reflexivity. Qed.

Section Jump.

Variable surface_row : Z.

Let dt : Q := frame_time.

(** One airborne frame that does not reach the surface. *)
Lemma airborne_update (p : Player.t) (h v : Q) :
  Player.on_ground p = false ->
  Player.jump_buffer p = false ->
  (Player.y p == inject_Z surface_row - h)%Q ->
  (Player.vy p == v)%Q ->
  (0 < h + v * dt)%Q ->
  let p' := Player.update p surface_row dt in
  Player.on_ground p' = false /\ Player.jump_buffer p' = false
  /\ Player.x p' = Player.x p
  /\ (Player.y p' == inject_Z surface_row - (h + v * dt))%Q
  /\ (Player.vy p' == v - GRAVITY * dt)%Q.
Proof.
  intros Hg Hj Hy Hv Hpos. unfold Player.update.
  rewrite Hj, Hg. cbn [andb negb].
  rewrite Hg. cbn [negb].
  assert (Hair : Py.geb (Player.y p - Player.vy p * dt)
                   (inject_Z surface_row) = false).
  { unfold Py.geb. apply not_true_is_false. rewrite Qle_bool_iff.
    rewrite Hy, Hv. lra. }
  rewrite Hair. cbn [Player.on_ground Player.jump_buffer Player.x
                     Player.y Player.vy].
  repeat split; auto.
  - rewrite Hy, Hv. lra.
  - rewrite Hv. reflexivity.
Qed.

(** The airborne frame that reaches the surface: the landing clamp. *)
Lemma landing_update (p : Player.t) (h v : Q) :
  Player.on_ground p = false ->
  Player.jump_buffer p = false ->
  (Player.y p == inject_Z surface_row - h)%Q ->
  (Player.vy p == v)%Q ->
  (h + v * dt <= 0)%Q ->
  Player.update p surface_row dt
  = Player.mk (Player.x p) (inject_Z surface_row) 0 true false.
Proof.
  intros Hg Hj Hy Hv Hneg. unfold Player.update.
  rewrite Hj, Hg. cbn [andb negb].
  rewrite Hg. cbn [negb].
  assert (Hland : Py.geb (Player.y p - Player.vy p * dt)
                    (inject_Z surface_row) = true).
  { unfold Py.geb. rewrite Qle_bool_iff. rewrite Hy, Hv. lra. }
  rewrite Hland, Hj. reflexivity.
Qed.

Lemma height_succ (k : Z) :
  (height (k + 1) == height k + velocity k * dt)%Q.
Proof.
  assert (Hdt : (dt == 1 # 30)%Q) by reflexivity. rewrite Hdt.
  unfold height, velocity, Qeq, Qplus, Qmult.
  cbn -[Z.mul Z.add Z.sub]. ring.
Qed.

Lemma velocity_succ (k : Z) :
  (velocity (k + 1) == velocity k - GRAVITY * dt)%Q.
Proof.
  assert (Hdt : (dt == 1 # 30)%Q) by reflexivity. rewrite Hdt.
  unfold velocity, GRAVITY, Qeq, Qminus, Qplus, Qmult, Qopp.
  cbn -[Z.mul Z.add Z.sub]. ring.
Qed.

Lemma height_pos (k : Z) : 1 <= k <= 28 -> (0 < height k)%Q.
Proof. intros H. unfold height, Qlt. cbn -[Z.mul Z.add Z.sub]. nia. Qed.

Variable x0 : Z.

Let p0 : Player.t := Player.request_jump (Player.init surface_row x0).

(** The state [k] frames after the request, while airborne. *)
Lemma airborne_frames (k : nat) :
  (1 <= k <= 28)%nat ->
  let p := Player.updates k p0 surface_row dt in
  Player.on_ground p = false /\ Player.jump_buffer p = false
  /\ Player.x p = x0
  /\ (Player.y p == inject_Z surface_row - height (Z.of_nat k))%Q
  /\ (Player.vy p == velocity (Z.of_nat k))%Q.
Proof.
  induction k as [|k IH]; [lia|]. intros Hk.
  destruct (Nat.eq_dec k 0) as [->|Hk0].
  - (* take-off frame *)
    cbn [Player.updates].
    assert (E : Player.update p0 surface_row dt
                = Player.update
                    (Player.mk x0 (inject_Z surface_row) JUMP_VEL false false)
                    surface_row dt) by reflexivity.
    cbv zeta. rewrite E.
    assert (H0 : (height 0 + velocity 0 * dt == height 1)%Q)
      by (symmetry; apply (height_succ 0)).
    pose proof (airborne_update
                  (Player.mk x0 (inject_Z surface_row) JUMP_VEL false false)
                  (height 0) (velocity 0) eq_refl eq_refl) as A.
    cbv zeta in A.
    destruct A as (A1 & A2 & A3 & A4 & A5).
    { cbn [Player.y]. assert (height 0 == 0)%Q by reflexivity. lra. }
    { reflexivity. }
    { rewrite H0. apply height_pos. lia. }
    repeat split; auto.
    + rewrite A4. rewrite <- (height_succ 0). reflexivity.
    + rewrite A5. rewrite <- (velocity_succ 0). reflexivity.
  - destruct IH as (I1 & I2 & I3 & I4 & I5); [lia|].
    cbn [Player.updates].
    assert (Hpos : (0 < height (Z.of_nat k) + velocity (Z.of_nat k) * dt)%Q).
    { rewrite <- height_succ. apply height_pos. lia. }
    pose proof (airborne_update _ _ _ I1 I2 I4 I5 Hpos) as A.
    cbv zeta in A. destruct A as (A1 & A2 & A3 & A4 & A5).
    replace (Z.of_nat (S k)) with (Z.of_nat k + 1) by lia.
    repeat split; auto.
    + congruence.
    + rewrite A4. rewrite <- height_succ. reflexivity.
    + rewrite A5. rewrite <- velocity_succ. reflexivity.
Qed.

(** C7: after a jump request on a constant surface row the player is
    airborne, strictly above the surface, for frames 1 to 28 and the
    29th frame puts it back on the surface row exactly, grounded and
    at rest.  The airtime of 29 frames is within two frames of
    [2 * JUMP_VEL / GRAVITY] seconds. *)
Theorem jump_round_trip :
  let after n := Player.updates n p0 surface_row frame_time in
  Forall (fun n => Player.on_ground (after n) = false
                   /\ (Player.y (after n) < inject_Z surface_row)%Q)
         (seq 1 28)
  /\ Player.on_ground (after 29%nat) = true
  /\ Player.y (after 29%nat) = Player.y (Player.init surface_row x0)
  /\ Player.vy (after 29%nat) = 0%Q
  /\ (2 * (JUMP_VEL / GRAVITY) <= 29 * frame_time
      <= 2 * (JUMP_VEL / GRAVITY) + 2 * frame_time)%Q.
Proof.
  cbv zeta. split; [|].
  - apply Forall_forall. intros n Hn. apply in_seq in Hn.
    destruct (airborne_frames n) as (A1 & _ & _ & A4 & _); [lia|].
    split; [exact A1|].
    fold dt. rewrite A4.
    pose proof (height_pos (Z.of_nat n) ltac:(lia)). lra.
  - destruct (airborne_frames 28) as (A1 & A2 & A3 & A4 & A5); [lia|].
    assert (E : Player.updates 29 p0 surface_row frame_time
                = Player.mk x0 (inject_Z surface_row) 0 true false).
    { rewrite (updates_succ 28). fold dt.
      rewrite (landing_update _ _ _ A1 A2 A4 A5); [now rewrite A3|].
      vm_compute. discriminate. }
    rewrite E. repeat split; try reflexivity; vm_compute; discriminate.
Qed.

End Jump.


(** ** Bullets against enemies *)

Lemma round_inject_Z (z : Z) : Py.round (inject_Z z) = z.
Proof.
  unfold Py.round. rewrite Qfloor_Z.
  assert (H : (inject_Z z - inject_Z z ?= 1 # 2)%Q = Lt).
  { rewrite <- Qlt_alt. generalize (inject_Z z). intros q. lra. }
  now rewrite H.
Qed.

Section Hits.

Variable w : Z.

Lemma parked_not_live (b : Bullet) : parked w b -> live w b = false.
Proof.
  unfold parked, live. intros ->. apply not_true_is_false.
  rewrite Py_ltb_lt, <- Zlt_Qlt. lia.
Qed.

(** A spent bullet overlaps no enemy left of the parking column. *)
Lemma parked_misses (e : Enemy) (b : Bullet) :
  left_of_parking w e -> parked w b -> bullet_hits e b = false.
Proof.
  unfold left_of_parking, parked, bullet_hits, rects_overlap.
  intros He ->. rewrite round_inject_Z.
  destruct (Z.ltb_spec (w + 999) (Py.round (e_x e) + ENEMY_WIDTH));
    [lia | reflexivity].
Qed.

Lemma first_hit_none (e : Enemy) (bullets : list Bullet) :
  first_hit w e bullets = None <->
  existsb (bullet_hits e) bullets = false.
Proof.
  induction bullets as [|b bs IH]; cbn [first_hit existsb]; [tauto|].
  destruct (bullet_hits e b); cbn [orb].
  - split; discriminate.
  - rewrite <- IH. destruct (first_hit w e bs); cbn; split;
      congruence.
Qed.

(** When the inner loop hits, it parks exactly one bullet, the first
    that overlaps the enemy. *)
Lemma first_hit_some (e : Enemy) (bullets bullets' : list Bullet) :
  first_hit w e bullets = Some bullets' ->
  exists l1 b l2,
    bullets = l1 ++ b :: l2
    /\ bullets' = l1 ++ mkBullet (inject_Z (w + 999)) (b_y b) :: l2
    /\ bullet_hits e b = true
    /\ existsb (bullet_hits e) l1 = false.
Proof.
  revert bullets'.
  induction bullets as [|b bs IH]; intros bullets'; cbn [first_hit];
    [discriminate|].
  destruct (bullet_hits e b) eqn:Hb.
  - intros [= <-]. exists [], b, bs. auto.
  - destruct (first_hit w e bs) as [bs1|]; [|discriminate].
    intros [= <-].
    destruct (IH bs1 eq_refl) as (l1 & b1 & l2 & -> & -> & H1 & H2).
    exists (b :: l1), b1, l2. cbn [app existsb]. rewrite Hb, H2. auto.
Qed.

Lemma prune_tidy (bullets : list Bullet) : tidy w (prune_bullets w bullets).
Proof.
  apply Forall_forall. intros b Hb.
  apply filter_In in Hb. left. apply Hb.
Qed.

Lemma prune_app (l1 l2 : list Bullet) :
  prune_bullets w (l1 ++ l2) = prune_bullets w l1 ++ prune_bullets w l2.
Proof. apply filter_app. Qed.

(** The effect of one hit on the bullets in play: the bullet that is
    consumed was in play, and the others are untouched. *)
Lemma hit_consumes_one (e : Enemy) (bullets bullets' : list Bullet) :
  left_of_parking w e -> tidy w bullets ->
  first_hit w e bullets = Some bullets' ->
  tidy w bullets'
  /\ Z.of_nat (length (prune_bullets w bullets'))
     = Z.of_nat (length (prune_bullets w bullets)) - 1
  /\ (forall b, In b (prune_bullets w bullets') ->
                In b (prune_bullets w bullets)).
Proof.
  intros He Ht Hf.
  destruct (first_hit_some e bullets bullets' Hf)
    as (l1 & b & l2 & -> & -> & Hb & _).
  unfold tidy in *. rewrite Forall_app in Ht. destruct Ht as [T1 T2].
  inversion T2 as [|b0 l0 Tb T3]; subst.
  assert (Lb : live w b = true).
  { destruct Tb as [L|P]; [exact L|].
    rewrite (parked_misses e b He P) in Hb. discriminate. }
  set (pb := mkBullet (inject_Z (w + 999)) (b_y b)).
  assert (Pp : parked w pb) by reflexivity.
  pose proof (parked_not_live pb Pp) as Lp.
  repeat split.
  - rewrite Forall_app. split; [exact T1|]. constructor; auto.
  - rewrite !prune_app. unfold prune_bullets at 2 4. cbn [filter].
    fold (live w pb). fold (live w b). rewrite Lp, Lb.
    rewrite !length_app. cbn [length]. lia.
  - intros b1. rewrite !prune_app. unfold prune_bullets at 2 4.
    cbn [filter]. fold (live w pb). fold (live w b). rewrite Lp, Lb.
    rewrite !in_app_iff. cbn [In]. tauto.
Qed.

(** The invariant of the outer loop. *)
Lemma hit_loop_spec (enemies : list Enemy) :
  forall bullets score kept kept' bullets' score',
    Forall (left_of_parking w) enemies ->
    tidy w bullets ->
    hit_loop w enemies bullets score kept = (kept', bullets', score') ->
    exists hit : list Enemy,
      kept' = kept ++ hit
      /\ score' = score
                  + ENEMY_SCORE
                    * (Z.of_nat (length enemies) - Z.of_nat (length hit))
      /\ Z.of_nat (length (prune_bullets w bullets))
         - Z.of_nat (length (prune_bullets w bullets'))
         = Z.of_nat (length enemies) - Z.of_nat (length hit)
      /\ (forall b, In b (prune_bullets w bullets') ->
                    In b (prune_bullets w bullets))
      /\ (forall e b, In e hit -> In b (prune_bullets w bullets') ->
                      bullet_hits e b = false)
      /\ (forall e, In e enemies ->
                    existsb (bullet_hits e) (prune_bullets w bullets) = false ->
                    In e hit).
Proof.
  induction enemies as [|e es IH];
    intros bullets score kept kept' bullets' score' He Ht;
    cbn [hit_loop].
  - intros [= <- <- <-]. exists []. rewrite app_nil_r. cbn.
    repeat split; auto; try lia; contradiction.
  - inversion He as [|e0 l0 He1 He2]; subst.
    destruct (first_hit w e bullets) as [bs1|] eqn:Hf.
    + destruct (hit_consumes_one e bullets bs1 He1 Ht Hf)
        as (Ht1 & Hlen & Hsub).
      intros Hl.
      destruct (IH bs1 _ _ _ _ _ He2 Ht1 Hl)
        as (hit & -> & -> & Hc & Hs & Hm & Hk).
      exists hit. cbn [length]. repeat split; auto; try lia.
      intros e1 [<-|Hin] Hex.
      * (* the enemy that was hit is overlapped by a bullet in play *)
        exfalso.
        destruct (first_hit_some e bullets bs1 Hf)
          as (l1 & b & l2 & -> & _ & Hb & _).
        unfold tidy in Ht. rewrite Forall_app in Ht.
        destruct Ht as [_ T2]. inversion T2 as [|b0 l0 Tb _]; subst.
        assert (Lb : live w b = true).
        { destruct Tb as [L|P]; [exact L|].
          rewrite (parked_misses e b He1 P) in Hb. discriminate. }
        rewrite prune_app, existsb_app in Hex.
        apply orb_false_iff in Hex. destruct Hex as [_ Hex].
        unfold prune_bullets in Hex. cbn [filter] in Hex.
        fold (live w b) in Hex. rewrite Lb in Hex. cbn [existsb] in Hex.
        rewrite Hb in Hex. discriminate.
      * apply Hk; [exact Hin|].
        apply not_true_is_false. intros Hex'.
        apply existsb_exists in Hex'. destruct Hex' as (b & Hb1 & Hb2).
        assert (Hex'' : existsb (bullet_hits e1) (prune_bullets w bullets)
                        = true).
        { apply existsb_exists. exists b. split; auto. }
        congruence.
    + intros Hl.
      destruct (IH bullets _ _ _ _ _ He2 Ht Hl)
        as (hit & -> & -> & Hc & Hs & Hm & Hk).
      exists (e :: hit). rewrite <- app_assoc. cbn [app length].
      repeat split; auto; try lia.
      * intros e1 b [<-|Hin] Hb.
        -- apply first_hit_none in Hf.
           apply not_true_is_false. intros Hhit.
           assert (Hex : existsb (bullet_hits e) bullets = true).
           { apply existsb_exists. exists b. split; [|exact Hhit].
             apply Hs in Hb. apply filter_In in Hb. apply Hb. }
           congruence.
        -- now apply Hm.
      * intros e1 [<-|Hin] Hex; [now left | right; now apply Hk].
Qed.

End Hits.

Lemma prune_idem (w : Z) (bullets : list Bullet) :
  prune_bullets w (prune_bullets w bullets) = prune_bullets w bullets.
Proof.
  unfold prune_bullets.
  induction bullets as [|b bs IH]; cbn [filter]; [reflexivity|].
  destruct (Py.ltb (b_x b) (inject_Z w)) eqn:E; cbn [filter];
    rewrite ?E, IH; reflexivity.
Qed.

(** C8: the bullet-enemy block of a frame, for enemies left of the
    column where spent bullets are parked.  The score grows by
    [ENEMY_SCORE] once per enemy removed; each removed enemy consumes
    exactly one bullet, so no bullet hits two enemies; no enemy that is
    kept overlaps a bullet that is kept; an enemy that no bullet in play
    overlaps is kept; and a single enemy overlapped by one or several
    bullets is removed for exactly one [ENEMY_SCORE]. *)
Theorem bullet_kills_once (w score : Z) (enemies : list Enemy)
  (bullets : list Bullet) :
  Forall (left_of_parking w) enemies ->
  let '(kept, bullets', score') := bullet_vs_enemy w enemies bullets score in
  let removed := Z.of_nat (length enemies) - Z.of_nat (length kept) in
  score' = score + ENEMY_SCORE * removed
  /\ Z.of_nat (length (prune_bullets w bullets)) - Z.of_nat (length bullets')
     = removed
  /\ (forall e b, In e kept -> In b bullets' -> bullet_hits e b = false)
  /\ (forall e, In e enemies ->
                existsb (bullet_hits e) (prune_bullets w bullets) = false ->
                In e kept)
  /\ (forall e, enemies = [e] ->
                existsb (bullet_hits e) (prune_bullets w bullets) = true ->
                kept = [] /\ score' = score + ENEMY_SCORE).
Proof.
  intros He. unfold bullet_vs_enemy.
  destruct (hit_loop w enemies (prune_bullets w bullets) score [])
    as [[kept bs] score'] eqn:Hl.
  destruct (hit_loop_spec w enemies _ _ _ _ _ _ He (prune_tidy w bullets) Hl)
    as (hit & Hk & Hs & Hc & _ & Hm & Hkeep).
  cbn [app] in Hk. subst kept. rewrite prune_idem in Hc, Hkeep.
  cbv zeta. split; [exact Hs|]. split; [exact Hc|].
  split; [exact Hm|]. split; [exact Hkeep|].
  intros e -> Hex. cbn [hit_loop] in Hl.
  destruct (first_hit w e (prune_bullets w bullets)) as [bs1|] eqn:Hf.
  - injection Hl as <- _ <-. auto.
  - apply first_hit_none in Hf. congruence.
Qed.

Lemma bullet_kills_once_witness :
  Forall (left_of_parking 80) [fly_at_10]
  /\ bullet_vs_enemy 80 [fly_at_10] two_bullets 100
     = ([], [mkBullet 13 6], 125).
Proof.
  assert (H : Forall (left_of_parking 80) [fly_at_10]).
  { repeat constructor. vm_compute. discriminate. }
  split; [exact H|].
  pose proof (bullet_kills_once 80 100 [fly_at_10] two_bullets H) as T.
  destruct (bullet_vs_enemy 80 [fly_at_10] two_bullets 100)
    as [[kept bs] score'] eqn:E.
  destruct T as (_ & _ & _ & _ & T).
  destruct (T fly_at_10 eq_refl eq_refl) as [-> ->].
  vm_compute in E. injection E as <-. reflexivity.
Defined.

(** *** Where the enemies are *)

Lemma round_le_floor_succ (x : Q) : Py.round x <= Qfloor x + 1.
Proof.
  unfold Py.round. cbv zeta.
  destruct (x - inject_Z (Qfloor x) ?= 1 # 2)%Q; [|lia|lia].
  destruct (Z.even (Qfloor x)); lia.
Qed.

Lemma floor_lt (x : Q) (z : Z) : (x < inject_Z (z + 1))%Q -> Qfloor x <= z.
Proof.
  intros H. pose proof (Qfloor_le x) as Hf.
  assert (Hlt : (inject_Z (Qfloor x) < inject_Z (z + 1))%Q)
    by (eapply Qle_lt_trans; eauto).
  rewrite <- Zlt_Qlt in Hlt. lia.
Qed.

(** The motion of a frame keeps the enemies on track, on a screen whose
    width does not change. *)
Lemma move_enemies_on_track (w cols enemy_top : Z)
  (sp_enemies : list enemy_marker) (enemies : list Enemy) :
  Forall (on_track w) enemies ->
  Forall (on_track w) (move_enemies w cols enemy_top sp_enemies enemies).
Proof.
  intros H. unfold move_enemies.
  assert (Hshimmy : forall e, on_track w e -> on_track w (shimmy e)).
  { intros e [[Hs Hx]|[Hs Hx]]; unfold on_track, shimmy;
      cbn [e_shim e_x]; rewrite Hs; [right | left];
      (split; [reflexivity|]); unfold ENEMY_SHIM_PER_FRAME in *.
    - change (inject_Z 1) with 1%Q. lra.
    - change (inject_Z (-1)) with (-1)%Q. lra. }
  assert (Hshift : forall e, 0 < cols -> on_track w e ->
                             on_track w (shift cols e)).
  { intros e Hc He.
    assert (Hq : (0 < inject_Z cols)%Q)
      by (change 0%Q with (inject_Z 0); now rewrite <- Zlt_Qlt).
    destruct He as [[Hs Hx]|[Hs Hx]]; unfold on_track, shift;
      cbn [e_shim e_x]; [left | right]; (split; [exact Hs|]); lra. }
  assert (Hspawn : on_track w (spawn w enemy_top)).
  { left. split; [reflexivity|]. cbn [spawn e_x]. lra. }
  apply Forall_forall. intros e He.
  apply filter_In in He. destruct He as [He _].
  apply in_map_iff in He. destruct He as (e1 & <- & He1).
  apply Hshimmy.
  destruct (Z.ltb_spec 0 cols) as [Hc|Hc].
  - apply in_map_iff in He1. destruct He1 as (e2 & <- & He2).
    apply Hshift; [exact Hc|].
    apply in_app_iff in He2. destruct He2 as [He2|He2].
    + rewrite Forall_forall in H. now apply H.
    + apply in_map_iff in He2. destruct He2 as (m & <- & _). exact Hspawn.
  - rewrite Forall_forall in H. now apply H.
Qed.

(** An enemy on track is left of the parking column. *)
Lemma on_track_left_of_parking (w : Z) (e : Enemy) :
  on_track w e -> left_of_parking w e.
Proof.
  unfold on_track, left_of_parking, ENEMY_SHIM_PER_FRAME.
  intros H.
  pose proof (round_le_floor_succ (e_x e)) as Hr.
  assert (Hf : Qfloor (e_x e) <= w - ENEMY_WIDTH).
  { apply floor_lt. rewrite inject_Z_plus. change (inject_Z 1) with 1%Q.
    destruct H as [[_ Hx]|[_ Hx]]; lra. }
  lia.
Qed.

(** * Further properties of the code *)

(** ** The generator, column by column *)

Lemma next_cell_counters (g : TrackGen) (s : Q) (o : output) (g' : TrackGen) :
  counters_ok g -> next_cell g s = Some (o, g') -> counters_ok g'.
Proof.
  unfold counters_ok.
  unfold next_cell, _step_event, random, randint, dec_edge_protect.
  cbv beta iota zeta.
  pose proof (min_spacing_ge_3 s) as Hm.
  pose proof (pit_cap_ge_min (max_jump_columns s)) as Hcap.
  assert (Hle : Z.max PIT_MIN (Z.min PIT_MAX (max_jump_columns s - 2))
                <= PIT_MAX) by (unfold PIT_MIN, PIT_MAX; lia).
  set (cap := Z.max PIT_MIN (Z.min PIT_MAX (max_jump_columns s - 2))) in *.
  assert (E3 : PIT_MIN = 3) by reflexivity.
  assert (E9 : PIT_MAX = 9) by reflexivity.
  assert (E4 : EDGE_BUFFER = 4) by reflexivity.
  intros Hc H.
  split_ifs; try discriminate;
    apply Some_pair_inv in H; destruct H as [_ <-]; fields; try lia.
  match goal with |- context [?a mod ?b] =>
    pose proof (Z.mod_pos_bound a b ltac:(lia)) end.
  lia.
Qed.

(** X1: the counters of the generator stay in range over any run: the
    warm-up and cooldown counters never go below 0, the pending pit
    width stays in [0, PIT_MAX - 1] and the edge protection in
    [0, EDGE_BUFFER]. *)
Theorem counters_stay_in_range (speeds : list Q) :
  forall g os g',
    counters_ok g ->
    next_cells g speeds = Some (os, g') ->
    counters_ok g'.
Proof.
  induction speeds as [|s rest IH]; intros g os g' Hc; cbn [next_cells].
  - intros [= _ <-]. exact Hc.
  - destruct (next_cell g s) as [[o g1]|] eqn:E; [|discriminate].
    destruct (next_cells g1 rest) as [[os1 g2]|] eqn:F; [|discriminate].
    intros [= _ <-].
    exact (IH g1 os1 g2 (next_cell_counters g s o g1 Hc E) F).
Qed.

Lemma counters_stay_in_range_witness :
  counters_ok after_fly.
Proof.
  apply (counters_stay_in_range [slow; slow; slow; slow; slow] after_cone
           [((Ground, 0), None); ((Ground, 0), None); ((Ground, 0), None);
            ((Ground, 0), Some Fly); ((Ground, 0), None)]).
  - unfold counters_ok. repeat split; vm_compute; (reflexivity || discriminate).
  - reflexivity.
Defined.

(** What one call does to the elevation. *)
Lemma next_cell_elev (g : TrackGen) (s : Q) (o : output) (g' : TrackGen) :
  next_cell g s = Some (o, g') ->
  snd (fst o) = elev g' /\ max_elev g' = max_elev g
  /\ (elev g' = elev g
      \/ ((elev g' = elev g + 1 \/ elev g' = elev g - 1)
          /\ o = ((Ground, elev g'), None))).
Proof.
  unfold next_cell, _step_event, random, randint, dec_edge_protect.
  cbv beta iota zeta. intros H.
  split_ifs; try discriminate;
    apply Some_pair_inv in H; destruct H as [<- <-]; fields;
    (split; [reflexivity|]); (split; [reflexivity|]);
    try (left; reflexivity); right; (split; [lia | reflexivity]).
Qed.

(** X2: the elevation a column reports is the generator's elevation
    after the call; a call moves it by at most one level, and only on a
    ground column without an enemy marker: pit, cone and enemy columns
    are level with the column before them. *)
Theorem elevation_moves_on_plain_ground (g : TrackGen) (s : Q) (c : cell)
  (e : Z) (m : option enemy_marker) (g' : TrackGen) :
  next_cell g s = Some (((c, e), m), g') ->
  e = elev g'
  /\ elev g - 1 <= e <= elev g + 1
  /\ (e <> elev g -> c = Ground /\ m = None).
Proof.
  intros H. destruct (next_cell_elev g s _ g' H) as (E1 & _ & E3).
  cbn [fst snd] in E1. subst e.
  destruct E3 as [E|[E F]].
  - repeat split; lia.
  - injection F as -> ->. repeat split; auto; lia.
Qed.

Lemma elevation_moves_on_plain_ground_witness :
  1 = elev after_flat_step
  /\ elev flat_step - 1 <= 1 <= elev flat_step + 1
  /\ (1 <> elev flat_step -> Ground = Ground /\ @None enemy_marker = None).
Proof.
  apply (elevation_moves_on_plain_ground flat_step slow Ground 1 None
           after_flat_step).
  reflexivity.
Defined.

(** X3: with at least one level above the base ([max_elev >= 1]), a
    generator whose elevation is within [0, max_elev] keeps it there
    over any run: every column it emits, and its final state, are
    within the bounds. *)
Theorem elevation_stays_in_range (speeds : list Q) :
  forall g os g',
    1 <= max_elev g ->
    0 <= elev g <= max_elev g ->
    next_cells g speeds = Some (os, g') ->
    Forall (fun o => 0 <= snd (fst o) <= max_elev g) os
    /\ 0 <= elev g' <= max_elev g
    /\ max_elev g' = max_elev g.
Proof.
  induction speeds as [|s rest IH]; intros g os g' Hm Hr; cbn [next_cells].
  - intros [= <- <-]. auto.
  - destruct (next_cell g s) as [[o g1]|] eqn:E; [|discriminate].
    destruct (next_cells g1 rest) as [[os1 g2]|] eqn:F; [|discriminate].
    intros [= <- <-].
    destruct (elev_in_range g s o g1 Hm Hr E) as (R1 & M1).
    destruct (next_cell_elev g s o g1 E) as (O1 & _ & _).
    destruct (IH g1 os1 g2 ltac:(lia) ltac:(lia) F) as (A & B & C).
    rewrite M1 in A, B, C.
    split; [|lia].
    constructor; [|exact A].
    cbv beta. unfold output, column in *. lia.
Qed.

Lemma elevation_stays_in_range_witness :
  Forall (fun o => 0 <= snd (fst o) <= max_elev step_at_roll)
    (columns_of (next_cells step_at_roll [slow; slow]))
  /\ 0 <= 1 <= max_elev step_at_roll.
Proof.
  destruct (next_cells step_at_roll [slow; slow]) as [[os g']|] eqn:E;
    [|discriminate].
  destruct (elevation_stays_in_range [slow; slow] step_at_roll os g')
    as (A & B & _).
  - vm_compute. discriminate.
  - split; vm_compute; discriminate.
  - exact E.
  - split; [exact A | split; vm_compute; discriminate].
Defined.

(** ** Runs of the generator *)

Lemma next_cells_app (l1 l2 : list Q) :
  forall g,
    next_cells g (l1 ++ l2) =
    match next_cells g l1 with
    | Some (os1, g1) =>
        match next_cells g1 l2 with
        | Some (os2, g2) => Some (os1 ++ os2, g2)
        | None => None
        end
    | None => None
    end.
Proof.
  induction l1 as [|s rest IH]; intros g; cbn [app next_cells].
  - destruct (next_cells g l2) as [[os2 g2]|]; reflexivity.
  - destruct (next_cell g s) as [[o g1]|]; [|reflexivity].
    rewrite IH.
    destruct (next_cells g1 rest) as [[os1 g2]|]; [|reflexivity].
    destruct (next_cells g2 l2) as [[os2 g3]|]; reflexivity.
Qed.

(** A pending pit is emitted to its last column, which arms the
    cooldown at the speed of that call. *)
Lemma pit_run (speeds : list Q) (s_last : Q) :
  forall g,
    warmup_cols g <= 0 ->
    pit_left g = Z.of_nat (length speeds) + 1 ->
    exists g',
      next_cells g (speeds ++ [s_last])
      = Some (repeat ((Pit, elev g), None) (length speeds + 1), g')
      /\ warmup_cols g' = warmup_cols g /\ pit_left g' = 0
      /\ cooldown g' = min_spacing s_last /\ elev g' = elev g.
Proof.
  induction speeds as [|s rest IH]; intros g Hw Hp;
    cbn [app next_cells length Nat.add repeat].
  - cbn [length] in Hp.
    destruct (pit_column g s_last Hw) as (g1 & -> & E1 & E2 & E3 & E4);
      [lia|].
    exists g1. repeat split; auto; lia.
  - cbn [length] in Hp.
    destruct (pit_column g s Hw) as (g1 & -> & E1 & E2 & E3 & _); [lia|].
    destruct (IH g1) as (g2 & -> & F1 & F2 & F3 & F4); [lia | lia |].
    exists g2. rewrite E3. repeat split; auto; congruence.
Qed.

(** X4: a pit that starts at the roll is [w] columns wide with
    [PIT_MIN <= w <= PIT_MAX] at every speed; its columns are level
    with the column before the pit and carry no enemy marker, and the
    column after the pit is plain ground, with the cooldown armed at
    the speed passed for the last pit column. *)
Theorem pit_shape (g : TrackGen) (s : Q) (e : Z) (m : option enemy_marker)
  (g1 : TrackGen) :
  rolling g ->
  next_cell g s = Some (((Pit, e), m), g1) ->
  PIT_MIN <= pit_left g1 + 1 <= PIT_MAX
  /\ e = elev g /\ m = None
  /\ forall (speeds : list Q) (s_last s_next : Q),
       Z.of_nat (length speeds) + 1 = pit_left g1 ->
       exists g2,
         next_cells g1 (speeds ++ [s_last] ++ [s_next])
         = Some (repeat ((Pit, e), None) (length speeds + 1)
                 ++ [((Ground, e), None)], g2)
         /\ cooldown g2 = min_spacing s_last - 1.
Proof.
  intros R H.
  destruct (pit_start_width g s e m g1 R H) as ((W1 & W2) & _).
  destruct (next_cell_elev g s _ g1 H) as (E1 & _ & E3).
  cbn [fst snd] in E1.
  assert (Hel : elev g1 = elev g).
  { destruct E3 as [E|[_ F]]; [exact E | discriminate]. }
  assert (Hm : m = None /\ warmup_cols g1 <= 0).
  { destruct R as (Hw & Hp & Hc). revert H.
    unfold next_cell, _step_event, random, randint, dec_edge_protect.
    cbv beta iota zeta. intros H.
    split_ifs; try discriminate;
      apply Some_pair_inv in H; destruct H as [H <-];
      pose proof (f_equal snd H) as Hm; cbn [snd] in Hm;
      pose proof (f_equal (fun o : output => fst (fst o)) H) as Hk;
      cbn [fst] in Hk; try discriminate;
      fields; (split; [symmetry; exact Hm | lia]). }
  destruct Hm as [-> Hw1].
  assert (E9 : PIT_MAX = 9) by reflexivity.
  assert (E3' : PIT_MIN = 3) by reflexivity.
  repeat split; try lia; try congruence.
  intros speeds s_last s_next Hlen.
  destruct (pit_run speeds s_last g1 Hw1 ltac:(lia))
    as (g2 & N1 & F1 & F2 & F3 & F4).
  pose proof (min_spacing_ge_3 s_last) as Hms.
  destruct (cooldown_column g2 s_next) as (g3 & N2 & G1 & G2 & G3 & G4);
    try lia.
  exists g3. rewrite app_assoc, next_cells_app, N1. cbn [next_cells].
  rewrite N2. rewrite F4, <- E1. split; [reflexivity | lia].
Qed.

Lemma pit_shape_witness :
  PIT_MIN <= pit_left after_pit_start + 1 <= PIT_MAX
  /\ 0 = elev pit_at_roll /\ @None enemy_marker = None
  /\ forall (speeds : list Q) (s_last s_next : Q),
       Z.of_nat (length speeds) + 1 = pit_left after_pit_start ->
       exists g2,
         next_cells after_pit_start (speeds ++ [s_last] ++ [s_next])
         = Some (repeat ((Pit, 0), None) (length speeds + 1)
                 ++ [((Ground, 0), None)], g2)
         /\ cooldown g2 = min_spacing s_last - 1.
Proof.
  apply (pit_shape pit_at_roll slow 0 None after_pit_start).
  - repeat split; discriminate.
  - reflexivity.
Defined.

(** What one call does to the edge protection. *)
Lemma next_cell_edge_protect (g : TrackGen) (s : Q) (o : output)
  (g' : TrackGen) :
  edge_protect g <= EDGE_BUFFER ->
  next_cell g s = Some (o, g') ->
  edge_protect g' <= EDGE_BUFFER
  /\ edge_protect g - 1 <= edge_protect g'
  /\ (fst (fst o) = Cone -> edge_protect g = 0).
Proof.
  unfold next_cell, _step_event, random, randint, dec_edge_protect.
  cbv beta iota zeta.
  assert (E4 : EDGE_BUFFER = 4) by reflexivity.
  intros Hle H.
  split_ifs; try discriminate;
    apply Some_pair_inv in H; destruct H as [<- <-]; fields;
    repeat split; try lia; discriminate.
Qed.

(** A cone is only placed once the edge protection has run out: in a
    run from a generator whose edge protection is [p], a cone column
    has at least [p] columns before it. *)
Lemma cone_index_bound (speeds : list Q) :
  forall g os g' k e m,
    edge_protect g <= EDGE_BUFFER ->
    next_cells g speeds = Some (os, g') ->
    nth_error os k = Some ((Cone, e), m) ->
    edge_protect g <= Z.of_nat k.
Proof.
  induction speeds as [|s rest IH]; intros g os g' k e m Hle;
    cbn [next_cells].
  - intros [= <- _]. destruct k; discriminate.
  - destruct (next_cell g s) as [[o g1]|] eqn:E; [|discriminate].
    destruct (next_cells g1 rest) as [[os1 g2]|] eqn:F; [|discriminate].
    intros [= <- _].
    destruct (next_cell_edge_protect g s o g1 Hle E) as (A & B & C).
    destruct k as [|k]; cbn [nth_error].
    + intros [= ->]. cbn [fst] in C. rewrite C; [lia | reflexivity].
    + intros Hn. pose proof (IH g1 os1 g2 k e m A F Hn). lia.
Qed.

(** The last column of a pit and a step column arm the edge
    protection. *)
Lemma pit_end_or_step_arms_edge (g : TrackGen) (s : Q) (o : output)
  (g1 : TrackGen) :
  next_cell g s = Some (o, g1) ->
  (fst (fst o) = Pit /\ pit_left g1 = 0) \/ snd (fst o) <> elev g ->
  edge_protect g1 = EDGE_BUFFER.
Proof.
  unfold next_cell, _step_event, random, randint, dec_edge_protect.
  cbv beta iota zeta.
  pose proof (pit_cap_ge_min (max_jump_columns s)) as Hcap.
  set (cap := Z.max PIT_MIN (Z.min PIT_MAX (max_jump_columns s - 2))) in *.
  assert (E3 : PIT_MIN = 3) by reflexivity.
  intros H Hend.
  split_ifs; try discriminate;
    apply Some_pair_inv in H; destruct H as [<- <-]; fields;
    try reflexivity;
    destruct Hend as [[Hc Hp]|He];
    try discriminate; try (exfalso; apply He; reflexivity); try lia.
  match goal with H : context [?a mod ?b] |- _ =>
    pose proof (Z.mod_pos_bound a b ltac:(lia)) end.
  lia.
Qed.

(** X5: the columns right after a pit or a step hold no cone.  The
    call that emits the last column of a pit, or a step column, sets
    the edge protection to [EDGE_BUFFER], and in every continuation of
    the track, at any speeds, a cone column has at least [EDGE_BUFFER]
    columns before it, also when the cooldown is shorter and the cone
    trial succeeds earlier. *)
Theorem no_cone_after_pit_or_step (g : TrackGen) (s : Q) (o : output)
  (g1 : TrackGen) (speeds : list Q) (os : list output) (g2 : TrackGen)
  (k : nat) (e : Z) (m : option enemy_marker) :
  next_cell g s = Some (o, g1) ->
  (fst (fst o) = Pit /\ pit_left g1 = 0) \/ snd (fst o) <> elev g ->
  next_cells g1 speeds = Some (os, g2) ->
  nth_error os k = Some ((Cone, e), m) ->
  edge_protect g1 = EDGE_BUFFER /\ EDGE_BUFFER <= Z.of_nat k.
Proof.
  intros H Hend Hn Hk.
  pose proof (pit_end_or_step_arms_edge g s o g1 H Hend) as Ha.
  split; [exact Ha|].
  rewrite <- Ha.
  apply (cone_index_bound speeds g1 os g2 k e m); [lia | exact Hn | exact Hk].
Qed.

Lemma no_cone_after_pit_or_step_witness :
  edge_protect after_step = EDGE_BUFFER /\ EDGE_BUFFER <= Z.of_nat 4.
Proof.
  apply (no_cone_after_pit_or_step step_then_cone slow ((Ground, 1), None)
           after_step [slow; slow; slow; slow; slow]
           [((Ground, 1), None); ((Ground, 1), None); ((Ground, 1), None);
            ((Ground, 1), None); ((Cone, 1), None)]
           after_step_cone 4%nat 1 None).
  - reflexivity.
  - right. discriminate.
  - reflexivity.
  - reflexivity.
Defined.

(** X6: a call never rewinds or replaces the random source and makes at
    most four draws; it makes none while a warm-up, a pit or a cooldown
    is pending. *)
Theorem draws_per_column (g : TrackGen) (s : Q) (o : output) (g' : TrackGen) :
  next_cell g s = Some (o, g') ->
  tape (rng g') = tape (rng g)
  /\ 0 <= draws g g' <= 4
  /\ (0 < warmup_cols g \/ 0 < pit_left g \/ 0 < cooldown g ->
      rng g' = rng g).
Proof.
  unfold next_cell, _step_event, random, randint, dec_edge_protect, draws.
  cbv beta iota zeta. intros H.
  split_ifs; try discriminate;
    apply Some_pair_inv in H; destruct H as [_ <-]; fields;
    (split; [reflexivity|]); (split; [lia|]);
    intros; solve [reflexivity | lia].
Qed.

Lemma draws_per_column_witness :
  tape (rng after_cone_at_roll) = tape (rng cone_at_roll)
  /\ 0 <= draws cone_at_roll after_cone_at_roll <= 4
  /\ (0 < warmup_cols cone_at_roll \/ 0 < pit_left cone_at_roll
      \/ 0 < cooldown cone_at_roll ->
      rng after_cone_at_roll = rng cone_at_roll).
Proof.
  apply (draws_per_column cone_at_roll slow ((Cone, 0), None)).
  reflexivity.
Defined.

(** ** [advance] *)

Lemma markers_length (os : list output) :
  (length (markers os) <= length os)%nat.
Proof.
  induction os as [|[c [e|]] rest IH]; cbn [markers length]; lia.
Qed.

Lemma advance_next_cells (n : Z) (s : Q) (g : TrackGen) :
  advance n s g =
  match next_cells g (repeat s (Z.to_nat n)) with
  | Some (os, g') => Some (map fst os, markers os, g')
  | None => None
  end.
Proof. unfold advance. now rewrite advance_loop_next_cells. Qed.

Lemma advance_result (n : Z) (s : Q) (g : TrackGen) :
  exists cells enemies g',
    advance n s g = Some (cells, enemies, g')
    /\ Z.of_nat (length cells) = Z.max 0 n
    /\ (length enemies <= length cells)%nat
    /\ (n <= 0 -> g' = g).
Proof.
  rewrite advance_next_cells.
  destruct (next_cells_total (repeat s (Z.to_nat n)) g) as (os & g' & E).
  rewrite E. exists (map fst os), (markers os), g'.
  pose proof (next_cells_length _ _ _ _ E) as L.
  rewrite repeat_length in L.
  rewrite length_map. repeat split.
  - replace (Z.max 0 n) with (Z.of_nat (Z.to_nat n)) by lia.
    f_equal. exact L.
  - apply markers_length.
  - intros Hn. replace (Z.to_nat n) with 0%nat in E by lia.
    cbn in E. congruence.
Qed.

(** X7: [advance(n, speed)] always returns: exactly [n] cells for
    [n >= 0] and none for a negative [n], at most one enemy marker per
    cell, and for [n <= 0] the generator is left as it was. *)
Theorem advance_counts (n : Z) (s : Q) (g : TrackGen) :
  exists cells enemies g',
    advance n s g = Some (cells, enemies, g')
    /\ Z.of_nat (length cells) = Z.max 0 n
    /\ (length enemies <= length cells)%nat
    /\ (n <= 0 -> g' = g).
Proof. exact (advance_result n s g). Qed.

Lemma markers_app (l1 l2 : list output) :
  markers (l1 ++ l2) = markers l1 ++ markers l2.
Proof.
  induction l1 as [|[c [e|]] rest IH]; cbn [app markers];
    rewrite ?IH; reflexivity.
Qed.

(** X8: advancing by [n + m] columns is advancing by [n] and then by
    [m]: the cells and the markers are the concatenations and the
    generator ends in the same state. *)
Theorem advance_compose (n m : Z) (s : Q) (g : TrackGen) :
  0 <= n -> 0 <= m ->
  advance (n + m) s g =
  match advance n s g with
  | Some (cells1, enemies1, g1) =>
      match advance m s g1 with
      | Some (cells2, enemies2, g2) =>
          Some (cells1 ++ cells2, enemies1 ++ enemies2, g2)
      | None => None
      end
  | None => None
  end.
Proof.
  intros Hn Hm. rewrite !advance_next_cells.
  rewrite Z2Nat.inj_add by lia. rewrite repeat_app, next_cells_app.
  destruct (next_cells g (repeat s (Z.to_nat n))) as [[os1 g1]|];
    [|reflexivity].
  rewrite advance_next_cells.
  destruct (next_cells g1 (repeat s (Z.to_nat m))) as [[os2 g2]|];
    [|reflexivity].
  now rewrite map_app, markers_app.
Qed.

Lemma advance_compose_witness :
  advance (1 + 2) slow pit_at_roll =
  match advance 1 slow pit_at_roll with
  | Some (cells1, enemies1, g1) =>
      match advance 2 slow g1 with
      | Some (cells2, enemies2, g2) =>
          Some (cells1 ++ cells2, enemies1 ++ enemies2, g2)
      | None => None
      end
  | None => None
  end.
Proof. apply (advance_compose 1 2 slow pit_at_roll); discriminate. Defined.

(** ** The player *)

Lemma Py_geb_le (x y : Q) : Py.geb x y = true <-> (y <= x)%Q.
Proof. unfold Py.geb. apply Qle_bool_iff. Qed.

Lemma Py_geb_false (x y : Q) : Py.geb x y = false <-> (x < y)%Q.
Proof.
  unfold Py.geb. rewrite <- not_true_iff_false, Qle_bool_iff.
  split; [apply Qnot_le_lt | apply Qlt_not_le].
Qed.

(** X9: whatever its state, after an update the player is never below
    the surface ([y <= surface_row], rows growing downward), it is on
    the surface row exactly whenever it is grounded, and its column is
    unchanged. *)
Theorem player_not_below_surface (p : Player.t) (surface_row : Z) (dt : Q) :
  let p' := Player.update p surface_row dt in
  (Player.y p' <= inject_Z surface_row)%Q
  /\ (Player.on_ground p' = true -> Player.y p' = inject_Z surface_row)
  /\ Player.x p' = Player.x p.
Proof.
  cbv zeta. unfold Player.update.
  destruct (Player.jump_buffer p && Player.on_ground p) eqn:J;
    cbn [Player.on_ground Player.y Player.vy Player.x Player.jump_buffer negb].
  - destruct (Py.geb (Player.y p - JUMP_VEL * dt) (inject_Z surface_row))
      eqn:G; cbn [Player.on_ground Player.y Player.x].
    + repeat split. apply Qle_refl.
    + apply Py_geb_false in G. repeat split; [lra | discriminate].
  - destruct (Player.on_ground p) eqn:O; cbn [negb].
    + cbn [Player.on_ground Player.y Player.x].
      repeat split. apply Qle_refl.
    + destruct (Py.geb (Player.y p - Player.vy p * dt)
                  (inject_Z surface_row)) eqn:G;
        cbn [Player.on_ground Player.y Player.x].
      * repeat split. apply Qle_refl.
      * apply Py_geb_false in G.
        repeat split; [lra | discriminate].
Qed.

Lemma update_airborne (p : Player.t) (surface_row : Z) (dt : Q) :
  Player.on_ground p = false ->
  Player.update p surface_row dt =
  if Py.geb (Player.y p - Player.vy p * dt) (inject_Z surface_row)
  then Player.mk (Player.x p) (inject_Z surface_row) 0 true
         (Player.jump_buffer p)
  else Player.mk (Player.x p) (Player.y p - Player.vy p * dt)
         (Player.vy p - GRAVITY * dt) false (Player.jump_buffer p).
Proof.
  intros O. unfold Player.update.
  rewrite O, andb_false_r. cbn [negb]. rewrite O. reflexivity.
Qed.

Lemma update_take_off (p : Player.t) (surface_row : Z) (dt : Q) :
  Player.on_ground p = true -> Player.jump_buffer p = true ->
  Player.update p surface_row dt =
  if Py.geb (Player.y p - JUMP_VEL * dt) (inject_Z surface_row)
  then Player.mk (Player.x p) (inject_Z surface_row) 0 true false
  else Player.mk (Player.x p) (Player.y p - JUMP_VEL * dt)
         (JUMP_VEL - GRAVITY * dt) false false.
Proof.
  intros O J. unfold Player.update.
  rewrite O, J. reflexivity.
Qed.

(** X10: a jump requested in the air is buffered.  The update of an
    airborne player is the same with and without the request, up to the
    buffer flag; and when that update lands, the next update over a
    surface that is not higher takes off again and clears the buffer. *)
Theorem buffered_jump (p : Player.t) (surface_row next_row : Z) (dt : Q) :
  Player.on_ground p = false ->
  (0 < dt)%Q ->
  surface_row <= next_row ->
  let flown := Player.update p surface_row dt in
  let p1 := Player.update (Player.request_jump p) surface_row dt in
  Player.y p1 = Player.y flown /\ Player.vy p1 = Player.vy flown
  /\ Player.on_ground p1 = Player.on_ground flown
  /\ Player.jump_buffer p1 = true
  /\ (Player.on_ground p1 = true ->
      let p2 := Player.update p1 next_row dt in
      Player.on_ground p2 = false /\ Player.jump_buffer p2 = false
      /\ (Player.y p2 < inject_Z next_row)%Q
      /\ (Player.vy p2 == JUMP_VEL - GRAVITY * dt)%Q).
Proof.
  intros O Hdt Hrow. cbv zeta.
  rewrite (update_airborne p surface_row dt O).
  rewrite (update_airborne (Player.request_jump p) surface_row dt O).
  cbn [Player.request_jump Player.on_ground Player.jump_buffer Player.y
       Player.vy Player.x].
  destruct (Py.geb (Player.y p - Player.vy p * dt) (inject_Z surface_row))
    eqn:G; cbn [Player.on_ground Player.jump_buffer Player.y Player.vy].
  - do 4 (split; [reflexivity|]).
    intros _. rewrite update_take_off by reflexivity.
    cbn [Player.y Player.x].
    assert (Hq : (inject_Z surface_row <= inject_Z next_row)%Q)
      by (now rewrite <- Zle_Qle).
    assert (Hj : (0 < JUMP_VEL * dt)%Q).
    { unfold JUMP_VEL. lra. }
    assert (A : Py.geb (inject_Z surface_row - JUMP_VEL * dt)
                  (inject_Z next_row) = false).
    { apply Py_geb_false. lra. }
    rewrite A. cbn [Player.on_ground Player.jump_buffer Player.y Player.vy].
    do 2 (split; [reflexivity|]). split; [lra | reflexivity].
  - do 4 (split; [reflexivity|]). discriminate.
Qed.

Lemma buffered_jump_witness :
  let p := Player.mk 5 (199 # 10) (-10) false false in
  let p1 := Player.update (Player.request_jump p) 20 frame_time in
  Player.on_ground p1 = true
  /\ Player.on_ground (Player.update p1 20 frame_time) = false.
Proof.
  cbv zeta.
  pose proof (buffered_jump (Player.mk 5 (199 # 10) (-10) false false) 20 20
                frame_time eq_refl eq_refl (Z.le_refl 20)) as H.
  cbv zeta in H. destruct H as (_ & _ & _ & _ & H).
  assert (L : Player.on_ground
                (Player.update
                   (Player.request_jump
                      (Player.mk 5 (199 # 10) (-10) false false))
                   20 frame_time) = true) by reflexivity.
  split; [exact L | apply (H L)].
Defined.

(** After the 29th frame of a jump the player is grounded at rest, and
    stays so while no new jump is requested. *)
Lemma landed_after_29 (surface_row x0 : Z) (m : nat) :
  Player.updates (29 + m)
    (Player.request_jump (Player.init surface_row x0)) surface_row frame_time
  = Player.mk x0 (inject_Z surface_row) 0 true false.
Proof.
  induction m as [|m IH].
  - rewrite Nat.add_0_r.
    destruct (airborne_frames surface_row x0 28) as (A1 & A2 & A3 & A4 & A5);
      [lia|].
    rewrite (updates_succ 28).
    rewrite (landing_update surface_row _ _ _ A1 A2 A4 A5);
      [now rewrite A3|].
    vm_compute. discriminate.
  - rewrite Nat.add_succ_r, updates_succ, IH. reflexivity.
Qed.

(** ** A jump against terrain and enemies *)

Lemma near_surface_height (y h : Q) (surface_row : Z) :
  (y == inject_Z surface_row - h)%Q -> (0 <= h)%Q ->
  near_surface y surface_row = Py.ltb h (51 # 100).
Proof.
  intros Hy Hh. apply eq_true_iff_eq. unfold near_surface.
  rewrite !Py_ltb_lt. split.
  - intros H. apply Qabs_Qlt_condition in H. lra.
  - intros H. apply Qabs_Qlt_condition. lra.
Qed.

Lemma height_clear (k : Z) : 2 <= k <= 26 -> (51 # 100 <= height k)%Q.
Proof. intros H. unfold height, Qle. cbn -[Z.mul Z.add Z.sub]. nia. Qed.

Lemma height_low (k : Z) : (height k < 5 # 2)%Q.
Proof.
  unfold height, Qlt. cbn -[Z.mul Z.add Z.sub].
  pose proof (Z.square_nonneg (22 * k - 311)). nia.
Qed.

(** X11: during a jump over a level surface the terrain under the car
    is not lethal on frames 2 to 26, whatever the cell; on frames 1, 27
    and 28 the car is in the air and yet within the 0.51 rows of the
    lethal test, so a pit or cone under it ends the game. *)
Theorem jump_clears_terrain (surface_row x0 : Z) (c : cell) :
  let after n :=
    Player.updates n (Player.request_jump (Player.init surface_row x0))
      surface_row frame_time in
  Forall (fun n => lethal_terrain c (Player.y (after n)) surface_row = false)
         (seq 2 25)
  /\ Forall (fun n => Player.on_ground (after n) = false
                      /\ lethal_terrain Pit (Player.y (after n)) surface_row
                         = true
                      /\ lethal_terrain Cone (Player.y (after n)) surface_row
                         = true)
            [1; 27; 28]%nat.
Proof.
  cbv zeta. split.
  - apply Forall_forall. intros n Hn. apply in_seq in Hn.
    destruct (airborne_frames surface_row x0 n) as (_ & _ & _ & A4 & _);
      [lia|].
    unfold lethal_terrain.
    rewrite (near_surface_height _ (height (Z.of_nat n)) _ A4).
    + pose proof (height_clear (Z.of_nat n) ltac:(lia)) as Hc.
      assert (E : Py.ltb (height (Z.of_nat n)) (51 # 100) = false).
      { apply not_true_is_false. rewrite Py_ltb_lt. lra. }
      now rewrite E.
    + pose proof (height_clear (Z.of_nat n) ltac:(lia)). lra.
  - apply Forall_forall. intros n Hn.
    assert (Hk : n = 1%nat \/ n = 27%nat \/ n = 28%nat)
      by (cbn [In] in Hn; intuition congruence).
    destruct (airborne_frames surface_row x0 n) as (A1 & _ & _ & A4 & _);
      [lia|].
    split; [exact A1|].
    unfold lethal_terrain.
    rewrite (near_surface_height _ (height (Z.of_nat n)) _ A4).
    + destruct Hk as [-> | [-> | ->]]; split; reflexivity.
    + destruct Hk as [-> | [-> | ->]]; vm_compute; discriminate.
Qed.

Lemma inject_Z_sub (a b : Z) :
  inject_Z (a - b) = (inject_Z a - inject_Z b)%Q.
Proof.
  unfold Z.sub, Qminus. now rewrite inject_Z_plus, inject_Z_opp.
Qed.

Lemma lt_inject (a b : Z) : (inject_Z a < inject_Z b)%Q -> a < b.
Proof. now rewrite <- Zlt_Qlt. Qed.

Lemma round_le (x : Q) (z : Z) : (x <= inject_Z z)%Q -> Py.round x <= z.
Proof.
  intros H. unfold Py.round. cbv zeta.
  pose proof (Qfloor_le x) as Hf.
  assert (F : Qfloor x <= z) by (rewrite Zle_Qle; lra).
  destruct (Qcompare_spec (x - inject_Z (Qfloor x)) (1 # 2)) as [E|E|E].
  - assert (Qfloor x < z) by (apply lt_inject; lra).
    destruct (Z.even (Qfloor x)); lia.
  - exact F.
  - assert (Qfloor x < z) by (apply lt_inject; lra). lia.
Qed.

Lemma round_ge (x : Q) (z : Z) :
  (inject_Z z - (1 # 2) < x)%Q -> z <= Py.round x.
Proof.
  intros H. unfold Py.round. cbv zeta.
  pose proof (Qlt_floor x) as Hf. rewrite inject_Z_plus in Hf.
  change (inject_Z 1) with 1%Q in Hf.
  destruct (Qcompare_spec (x - inject_Z (Qfloor x)) (1 # 2)) as [E|E|E].
  - assert (z < Qfloor x + 1).
    { apply lt_inject. rewrite inject_Z_plus.
      change (inject_Z 1) with 1%Q. lra. }
    destruct (Z.even (Qfloor x)); lia.
  - assert (z < Qfloor x + 1).
    { apply lt_inject. rewrite inject_Z_plus.
      change (inject_Z 1) with 1%Q. lra. }
    lia.
  - assert (z < Qfloor x + 1 + 1).
    { apply lt_inject. rewrite !inject_Z_plus.
      change (inject_Z 1) with 1%Q. lra. }
    lia.
Qed.

(** Through a whole jump, from the request on, the car is at most 2.5
    rows above the surface. *)
Lemma jump_height_bound (surface_row x0 : Z) (n : nat) :
  let p := Player.updates n
             (Player.request_jump (Player.init surface_row x0))
             surface_row frame_time in
  (inject_Z surface_row - (5 # 2) < Player.y p <= inject_Z surface_row)%Q.
Proof.
  cbv zeta.
  destruct (Nat.eq_dec n 0) as [->|Hn0].
  - cbn. lra.
  - destruct (Nat.le_gt_cases n 28) as [Hle|Hgt].
    + destruct (airborne_frames surface_row x0 n) as (_ & _ & _ & A4 & _);
        [lia|].
      rewrite A4.
      pose proof (height_low (Z.of_nat n)).
      pose proof (height_pos (Z.of_nat n) ltac:(lia)). lra.
    + replace n with (29 + (n - 29))%nat by lia.
      rewrite landed_after_29. cbn [Player.y]. lra.
Qed.

(** X12: a fly whose box starts [ENEMY_HEIGHT] rows above the surface
    the car runs on (where a fly is spawned on that level) cannot be
    jumped over: on every frame of a jump the rows of the car meet the
    rows of the fly, so the enemy-against-car test depends on the
    columns only. *)
Theorem fly_on_level_not_jumpable (surface_row x0 : Z) (e : Enemy)
  (n : nat) :
  e_y e = surface_row - ENEMY_HEIGHT ->
  car_hits x0
    (Player.y (Player.updates n
                 (Player.request_jump (Player.init surface_row x0))
                 surface_row frame_time)) e
  = (x0 <? Py.round (e_x e) + ENEMY_WIDTH)
    && (Py.round (e_x e) <? x0 + CAR_W).
Proof.
  intros He.
  pose proof (jump_height_bound surface_row x0 n) as Hb. cbv zeta in Hb.
  set (y := Player.y _) in *.
  assert (R1 : Py.round y <= surface_row) by (apply round_le; lra).
  assert (R2 : surface_row - 2 <= Py.round y).
  { apply round_ge. rewrite inject_Z_sub.
    change (inject_Z 2) with 2%Q. lra. }
  unfold car_hits, rects_overlap. cbv zeta.
  rewrite round_inject_Z, He.
  assert (EH : ENEMY_HEIGHT = 3) by reflexivity.
  assert (CH : CAR_H = 3) by reflexivity.
  rewrite EH, CH.
  destruct (Z.ltb_spec (Py.round y - (3 - 1)) (surface_row - 3 + 3)); [|lia].
  destruct (Z.ltb_spec (surface_row - 3) (Py.round y - (3 - 1) + 3)); [|lia].
  now rewrite !andb_true_r.
Qed.

Lemma fly_on_level_not_jumpable_witness :
  car_hits 5
    (Player.y (Player.updates 14
                 (Player.request_jump (Player.init 20 5)) 20 frame_time))
    (mkEnemy 8 17 1)
  = (5 <? Py.round 8 + ENEMY_WIDTH) && (Py.round 8 <? 5 + CAR_W).
Proof.
  apply (fly_on_level_not_jumpable 20 5 (mkEnemy 8 17 1) 14).
  reflexivity.
Defined.

(** ** Helpers of the frame loop *)

(** X13: for [lo <= hi], [clamp] returns a value of [lo .. hi], leaves
    the values of that range alone and is idempotent. *)
Theorem clamp_in_range (v lo hi : Z) :
  lo <= hi ->
  lo <= Py.clamp v lo hi <= hi
  /\ (lo <= v <= hi -> Py.clamp v lo hi = v)
  /\ Py.clamp (Py.clamp v lo hi) lo hi = Py.clamp v lo hi.
Proof.
  intros H. unfold Py.clamp.
  destruct (Z.ltb_spec v lo) as [A|A].
  - destruct (Z.ltb_spec lo lo); [lia|].
    destruct (Z.ltb_spec hi lo); [lia|]. repeat split; lia.
  - destruct (Z.ltb_spec hi v) as [B|B].
    + destruct (Z.ltb_spec hi lo); [lia|].
      destruct (Z.ltb_spec hi hi); [lia|]. repeat split; lia.
    + destruct (Z.ltb_spec v lo); [lia|].
      destruct (Z.ltb_spec hi v); [lia|]. repeat split; lia.
Qed.

Lemma clamp_in_range_witness :
  0 <= Py.clamp 93 0 79 <= 79
  /\ (0 <= 93 <= 79 -> Py.clamp 93 0 79 = 93)
  /\ Py.clamp (Py.clamp 93 0 79) 0 79 = Py.clamp 93 0 79.
Proof. apply (clamp_in_range 93 0 79). discriminate. Defined.

(** X14: for boxes of positive width and height, [rects_overlap] holds
    exactly when the two boxes share a cell; and the test is
    symmetric. *)
Theorem rects_overlap_common_cell (ax ay aw ah bx by_ bw bh : Z) :
  0 < aw -> 0 < ah -> 0 < bw -> 0 < bh ->
  (rects_overlap ax ay aw ah bx by_ bw bh = true <->
   exists px py,
     ax <= px < ax + aw /\ ay <= py < ay + ah
     /\ bx <= px < bx + bw /\ by_ <= py < by_ + bh)
  /\ rects_overlap ax ay aw ah bx by_ bw bh
     = rects_overlap bx by_ bw bh ax ay aw ah.
Proof.
  intros Haw Hah Hbw Hbh. unfold rects_overlap. split.
  - rewrite !andb_true_iff, !Z.ltb_lt. split.
    + intros (((H1 & H2) & H3) & H4).
      exists (Z.max ax bx), (Z.max ay by_). lia.
    + intros (px & py & H). lia.
  - destruct (Z.ltb_spec ax (bx + bw)), (Z.ltb_spec bx (ax + aw)),
      (Z.ltb_spec ay (by_ + bh)), (Z.ltb_spec by_ (ay + ah)); reflexivity.
Qed.

Lemma rects_overlap_common_cell_witness :
  rects_overlap 12 6 1 1 10 5 9 3 = true.
Proof.
  apply (proj1 (rects_overlap_common_cell 12 6 1 1 10 5 9 3
                  eq_refl eq_refl eq_refl eq_refl)).
  exists 12, 6. lia.
Defined.

(** X15: [layout()] keeps the effective maximum elevation within
    [0, MAX_ELEV]; it is 0 on a terminal of at most 6 rows.  On a
    terminal of at least 6 rows every surface row of an elevation up to
    that maximum leaves the two rows above it for the car and lies
    above the ground row; and the car column is on a screen of at least
    one column. *)
Theorem layout_room (h w : Z) :
  0 <= eff_max_elev (layout h w) <= MAX_ELEV
  /\ (h <= 6 -> eff_max_elev (layout h w) = 0)
  /\ (6 <= h ->
      forall elevation, 0 <= elevation <= eff_max_elev (layout h w) ->
        CAR_H - 1 <= base_row (layout h w) - elevation
                  < ground_row (layout h w))
  /\ (1 <= w -> 0 <= car_x (layout h w) <= w - 1).
Proof.
  unfold layout. cbv zeta.
  cbn [eff_max_elev base_row ground_row car_x].
  assert (EM : MAX_ELEV = 10) by reflexivity.
  assert (EG : GROUND_PAD = 2) by reflexivity.
  assert (EC : CAR_H = 3) by reflexivity.
  rewrite EM, EG, EC.
  repeat split; try lia.
  - unfold CAR_X_FRACTION. rewrite int_inject_mul.
    apply Z.quot_pos; lia.
  - unfold CAR_X_FRACTION. rewrite int_inject_mul.
    rewrite Z.quot_div_nonneg by lia.
    assert (w * 14 / 100 < w); [|lia].
    apply Z.div_lt_upper_bound; lia.
Qed.

Lemma layout_room_witness :
  CAR_H - 1 <= base_row (layout 24 80) - 10 < ground_row (layout 24 80)
  /\ 0 <= car_x (layout 24 80) <= 80 - 1.
Proof.
  destruct (layout_room 24 80) as (_ & _ & A & B).
  split.
  - apply A; [discriminate | split; discriminate].
  - apply B. discriminate.
Defined.

(** ** The world scroll *)

Lemma int_floor_nonneg (x : Q) : (0 <= x)%Q -> Py.int x = Qfloor x.
Proof.
  destruct x as [n d]. unfold Qle, Py.int, Qfloor. cbn [Qnum Qden].
  intros H. apply Z.quot_div_nonneg; lia.
Qed.

(** X16: the scroll accumulator is always a fraction of a column.  From
    an accumulator in [0, 1) and a speed that is not negative, a frame
    scrolls a number of columns that is not negative and leaves the
    accumulator in [0, 1) again: the whole columns are taken out as
    soon as they are reached. *)
Theorem scroll_keeps_fraction (scroll_acc current_speed : Q) :
  (0 <= scroll_acc < 1)%Q ->
  (0 <= current_speed)%Q ->
  (0 <= fst (scroll scroll_acc current_speed) < 1)%Q
  /\ 0 <= snd (scroll scroll_acc current_speed).
Proof.
  intros Ha Hs. unfold scroll. cbv zeta.
  assert (Hx : (0 <= scroll_acc + current_speed)%Q) by lra.
  rewrite (int_floor_nonneg _ Hx).
  pose proof (Qfloor_le (scroll_acc + current_speed)) as F1.
  pose proof (Qlt_floor (scroll_acc + current_speed)) as F2.
  rewrite inject_Z_plus in F2. change (inject_Z 1) with 1%Q in F2.
  assert (F0 : 0 <= Qfloor (scroll_acc + current_speed)).
  { change 0 with (Qfloor 0). now apply Qfloor_resp_le. }
  destruct (Z.ltb_spec 0 (Qfloor (scroll_acc + current_speed))) as [C|C];
    cbn [fst snd].
  - repeat split; try lra; lia.
  - assert (E : Qfloor (scroll_acc + current_speed) = 0) by lia.
    rewrite E in *. change (inject_Z 0) with 0%Q in *.
    repeat split; try lra; lia.
Qed.

Lemma scroll_keeps_fraction_witness :
  (0 <= fst (scroll (1 # 2) (5 # 2)) < 1)%Q
  /\ 0 <= snd (scroll (1 # 2) (5 # 2)).
Proof.
  apply (scroll_keeps_fraction (1 # 2) (5 # 2)).
  - split; [discriminate | reflexivity].
  - discriminate.
Defined.

Lemma extend_length (w : Z) (visible cells : list column) :
  0 <= w -> w <= Z.of_nat (length visible + length cells) ->
  Z.of_nat (length (extend w visible cells)) = w.
Proof.
  intros Hw Hl. unfold extend. cbv zeta.
  rewrite length_skipn, length_app. lia.
Qed.

(** X17: the world scroll keeps the visible window as wide as the
    screen.  On a window of [w] columns it always returns, the new
    window has [w] columns again, there is at most one enemy marker per
    column scrolled, and when nothing scrolls the window and the
    generator are untouched; when [cols <= w] columns scroll, the
    window is the old one without its first [cols] columns, followed by
    the [cols] new cells. *)
Theorem window_keeps_width (w : Z) (visible : list column) (track : TrackGen)
  (scroll_acc current_speed : Q) :
  Z.of_nat (length visible) = w ->
  exists visible' track' acc cols sp_enemies,
    world_scroll w visible track scroll_acc current_speed
    = Some (visible', track', acc, cols, sp_enemies)
    /\ Z.of_nat (length visible') = w
    /\ Z.of_nat (length sp_enemies) <= Z.max 0 cols
    /\ (cols <= 0 -> visible' = visible /\ track' = track)
    /\ (0 < cols <= w ->
        exists cells,
          advance cols current_speed track = Some (cells, sp_enemies, track')
          /\ Z.of_nat (length cells) = cols
          /\ visible' = skipn (Z.to_nat cols) visible ++ cells).
Proof.
  intros Hw. unfold world_scroll.
  destruct (scroll scroll_acc current_speed) as [acc cols].
  destruct (Z.ltb_spec 0 cols) as [C|C].
  - destruct (advance_result cols current_speed track)
      as (cells & sp & track' & E & L1 & L2 & _).
    rewrite E.
    exists (extend w (popleft_n cols visible) cells), track', acc, cols, sp.
    split; [reflexivity|].
    assert (Lp : length (popleft_n cols visible)
                 = (length visible - Z.to_nat cols)%nat)
      by (unfold popleft_n; apply length_skipn).
    split; [|split; [|split]].
    + apply extend_length; lia.
    + lia.
    + intros; lia.
    + intros [_ Hc]. exists cells. split; [exact E|].
      split; [lia|].
      unfold extend, popleft_n. cbv zeta.
      rewrite length_app, length_skipn.
      replace (length visible - Z.to_nat cols + length cells - Z.to_nat w)%nat
        with 0%nat by lia.
      reflexivity.
  - exists visible, track, acc, cols, [].
    split; [reflexivity|]. cbn [length]. repeat split; try lia.
Qed.

Lemma window_keeps_width_witness :
  exists visible' track' acc cols sp_enemies,
    world_scroll 3 [(Ground, 0); (Ground, 0); (Ground, 0)] pit_at_roll 0 1
    = Some (visible', track', acc, cols, sp_enemies)
    /\ Z.of_nat (length visible') = 3.
Proof.
  destruct (window_keeps_width 3 [(Ground, 0); (Ground, 0); (Ground, 0)]
              pit_at_roll 0 1 eq_refl)
    as (v & t & a & c & sp & E & L & _).
  exists v, t, a, c, sp. split; [exact E | exact L].
Defined.

(** ** Enemies and bullets between the tests *)

(** X18: on a screen whose width does not change, the motion of a frame
    (spawn, shift with the world, shimmy, prune) keeps every enemy on
    track, hence left of the column where spent bullets are parked, and
    keeps only enemies whose box still reaches onto the screen. *)
Theorem enemies_stay_on_screen (w cols enemy_top : Z)
  (sp_enemies : list enemy_marker) (enemies : list Enemy) :
  Forall (on_track w) enemies ->
  Forall (fun e => on_track w e /\ left_of_parking w e
                   /\ (0 < e_x e + inject_Z ENEMY_WIDTH)%Q)
         (move_enemies w cols enemy_top sp_enemies enemies).
Proof.
  intros H.
  pose proof (move_enemies_on_track w cols enemy_top sp_enemies enemies H)
    as Ht.
  rewrite Forall_forall in *. intros e He.
  split; [now apply Ht|]. split.
  - apply on_track_left_of_parking. now apply Ht.
  - unfold move_enemies in He. apply filter_In in He.
    destruct He as [_ He]. now apply Py_gtb_lt in He.
Qed.

Lemma enemies_stay_on_screen_witness :
  Forall (fun e => on_track 80 e /\ left_of_parking 80 e
                   /\ (0 < e_x e + inject_Z ENEMY_WIDTH)%Q)
         (move_enemies 80 2 17 [Fly] []).
Proof.
  apply (enemies_stay_on_screen 80 2 17 [Fly] []). constructor.
Defined.

Lemma move_bullets_one (w : Z) (b : Bullet) :
  move_bullets w [b] =
  if Py.ltb (b_x b + BULLET_SPEED_COLS) (inject_Z w)
  then [mkBullet (b_x b + BULLET_SPEED_COLS) (b_y b)]
  else [].
Proof. reflexivity. Qed.

(** X20: a bullet flies three columns per frame in its row and is
    dropped on the first frame that would put it at or beyond the right
    edge: after [k >= 1] frames it is still in play exactly when
    [x + 3 k < w]. *)
Theorem bullet_lifetime (w : Z) (k : nat) :
  forall b,
    (1 <= k)%nat ->
    ((b_x b + 3 * inject_Z (Z.of_nat k) < inject_Z w)%Q ->
     exists b',
       Nat.iter k (move_bullets w) [b] = [b']
       /\ (b_x b' == b_x b + 3 * inject_Z (Z.of_nat k))%Q
       /\ b_y b' = b_y b)
    /\ ((inject_Z w <= b_x b + 3 * inject_Z (Z.of_nat k))%Q ->
        Nat.iter k (move_bullets w) [b] = []).
Proof.
  assert (Hnil : forall j, Nat.iter j (move_bullets w) [] = []).
  { induction j as [|j IH]; [reflexivity|].
    rewrite Nat.iter_succ. now rewrite IH. }
  assert (Hk : forall j, (inject_Z (Z.of_nat (S j))
                          == inject_Z (Z.of_nat j) + 1)%Q).
  { intros j. rewrite Nat2Z.inj_succ. unfold Z.succ.
    rewrite inject_Z_plus. reflexivity. }
  induction k as [|k IH]; intros b Hge; [lia|].
  rewrite Nat.iter_succ.
  destruct (Nat.eq_dec k 0) as [->|Hk0].
  - change (Nat.iter 0 (move_bullets w) [b]) with [b].
    rewrite move_bullets_one.
    change (inject_Z (Z.of_nat 1)) with 1%Q.
    unfold BULLET_SPEED_COLS. split.
    + intros Hlt.
      assert (E : Py.ltb (b_x b + 3) (inject_Z w) = true)
        by (apply Py_ltb_lt; lra).
      rewrite E. eexists. split; [reflexivity|].
      cbn [b_x b_y]. split; [lra | reflexivity].
    + intros Hle.
      assert (E : Py.ltb (b_x b + 3) (inject_Z w) = false).
      { apply not_true_is_false. rewrite Py_ltb_lt. lra. }
      now rewrite E.
  - destruct (IH b ltac:(lia)) as [I1 I2].
    rewrite (Hk k).
    destruct (Qlt_le_dec (b_x b + 3 * inject_Z (Z.of_nat k)) (inject_Z w))
      as [Hin|Hout].
    + destruct (I1 Hin) as (b1 & -> & X1 & Y1).
      rewrite move_bullets_one. unfold BULLET_SPEED_COLS. split.
      * intros Hlt.
        assert (E : Py.ltb (b_x b1 + 3) (inject_Z w) = true)
          by (apply Py_ltb_lt; rewrite X1; lra).
        rewrite E. eexists. split; [reflexivity|].
        cbn [b_x b_y]. split; [rewrite X1, ?(Hk k); lra | exact Y1].
      * intros Hle.
        assert (E : Py.ltb (b_x b1 + 3) (inject_Z w) = false).
        { apply not_true_is_false. rewrite Py_ltb_lt, X1. lra. }
        now rewrite E.
    + rewrite (I2 Hout). split.
      * intros Hlt. exfalso. lra.
      * intros _. reflexivity.
Qed.

Lemma bullet_lifetime_witness :
  Nat.iter 2 (move_bullets 20) [mkBullet 14 6] = [].
Proof.
  apply (proj2 (bullet_lifetime 20 2 (mkBullet 14 6) ltac:(lia))).
  discriminate.
Defined.

(** ** Where the three-column floor of the jump applies *)

Lemma int_lt_pos (x : Q) (z : Z) :
  0 < z -> (x < inject_Z z)%Q -> Py.int x < z.
Proof.
  intros Hz Hx.
  destruct (Qlt_le_dec x 0) as [Hn|Hp].
  - assert (Py.int x <= Py.int 0) by (apply int_mono; lra).
    change (Py.int 0) with 0 in *. lia.
  - rewrite (int_floor_nonneg x Hp).
    pose proof (Qfloor_le x). apply lt_inject. lra.
Qed.

(** X21: the jump envelope is at its floor of three columns exactly
    below 22/135 columns per frame (about 0.163), in particular at
    every speed that is zero or negative; the spacing is then three
    columns as well. *)
Theorem envelope_floor (s : Q) :
  (max_jump_columns s = 3 <-> (s < 22 # 135)%Q)
  /\ ((s < 22 # 135)%Q -> min_spacing s = 3).
Proof.
  assert (Hiff : max_jump_columns s = 3 <-> (s < 22 # 135)%Q).
  { unfold max_jump_columns. cbv zeta.
    set (x := (s * inject_Z FPS * (2 * (JUMP_VEL / GRAVITY)) * (9 # 10))%Q).
    assert (Hx : (x == s * (270 # 11))%Q).
    { unfold x, FPS, JUMP_VEL, GRAVITY. field. }
    split.
    - intros H.
      destruct (Qlt_le_dec s (22 # 135)) as [Hs|Hs]; [exact Hs|].
      exfalso.
      assert (H4 : Py.int 4 <= Py.int x) by (apply int_mono; lra).
      change (Py.int 4) with 4 in H4. lia.
    - intros Hs.
      assert (Py.int x < 4).
      { apply int_lt_pos; [lia|].
        change (inject_Z 4) with 4%Q. rewrite Hx. lra. }
      lia. }
  split; [exact Hiff|].
  intros Hs. apply Hiff in Hs. rewrite min_spacing_div, Hs. reflexivity.
Qed.

Lemma envelope_floor_witness :
  max_jump_columns 0 = 3 /\ min_spacing 0 = 3.
Proof.
  destruct (envelope_floor 0) as [A B].
  split; [apply A | apply B]; reflexivity.
Defined.

(** ** What the bullet test leaves *)

Lemma sublist_refl {A : Type} (l : list A) : sublist l l.
Proof.
  induction l; [apply sublist_nil | apply sublist_keep; assumption].
Qed.

Lemma sublist_nil_l {A : Type} (l : list A) : sublist [] l.
Proof.
  induction l; [apply sublist_nil | apply sublist_skip; assumption].
Qed.

Lemma sublist_app {A : Type} (a b c d : list A) :
  sublist a b -> sublist c d -> sublist (a ++ c) (b ++ d).
Proof.
  intros H. induction H as [|x l1 l2 H IH|x l1 l2 H IH]; intros Hc;
    cbn [app].
  - exact Hc.
  - apply sublist_skip. now apply IH.
  - apply sublist_keep. now apply IH.
Qed.

Lemma sublist_trans {A : Type} (l2 l3 : list A) :
  sublist l2 l3 -> forall l1, sublist l1 l2 -> sublist l1 l3.
Proof.
  intros H. induction H as [|x l2 l3 H IH|x l2 l3 H IH]; intros l1 H1.
  - exact H1.
  - apply sublist_skip. now apply IH.
  - inversion H1; subst.
    + apply sublist_skip. now apply IH.
    + apply sublist_keep. now apply IH.
Qed.

Lemma sublist_filter {A : Type} (f : A -> bool) (l : list A) :
  sublist (filter f l) l.
Proof.
  induction l as [|x l IH]; cbn [filter]; [apply sublist_nil|].
  destruct (f x); [apply sublist_keep | apply sublist_skip]; exact IH.
Qed.

Lemma hit_keeps_order (w : Z) (e : Enemy) (bullets bullets' : list Bullet) :
  first_hit w e bullets = Some bullets' ->
  sublist (prune_bullets w bullets') (prune_bullets w bullets).
Proof.
  intros Hf.
  destruct (first_hit_some w e bullets bullets' Hf)
    as (l1 & b & l2 & -> & -> & _ & _).
  rewrite !prune_app. apply sublist_app; [apply sublist_refl|].
  change (?x :: l2) with ([x] ++ l2). rewrite !prune_app.
  apply sublist_app; [|apply sublist_refl].
  unfold prune_bullets at 1. cbn [filter b_x].
  assert (E : Py.ltb (inject_Z (w + 999)) (inject_Z w) = false).
  { apply not_true_is_false. rewrite Py_ltb_lt, <- Zlt_Qlt. lia. }
  rewrite E. apply sublist_nil_l.
Qed.

Lemma hit_loop_sublists (w : Z) (enemies : list Enemy) :
  forall bullets score kept kept' bullets' score',
    hit_loop w enemies bullets score kept = (kept', bullets', score') ->
    exists hit,
      kept' = kept ++ hit /\ sublist hit enemies
      /\ sublist (prune_bullets w bullets') (prune_bullets w bullets)
      /\ score <= score'.
Proof.
  induction enemies as [|e es IH];
    intros bullets score kept kept' bullets' score'; cbn [hit_loop].
  - intros [= <- <- <-]. exists []. rewrite app_nil_r.
    repeat split; [apply sublist_nil | apply sublist_refl | lia].
  - destruct (first_hit w e bullets) as [bs1|] eqn:Hf; intros Hl.
    + destruct (IH _ _ _ _ _ _ Hl) as (hit & -> & S1 & S2 & Hs).
      exists hit. repeat split.
      * now apply sublist_skip.
      * apply (sublist_trans _ _ (hit_keeps_order w e bullets bs1 Hf)).
        exact S2.
      * unfold ENEMY_SCORE in Hs. lia.
    + destruct (IH _ _ _ _ _ _ Hl) as (hit & -> & S1 & S2 & Hs).
      exists (e :: hit). rewrite <- app_assoc. repeat split; auto.
      now apply sublist_keep.
Qed.

(** X22: the bullet test only removes.  The enemies it keeps are
    enemies of the frame in their order, the bullets it keeps are
    bullets of the frame in their order, all of them in play, and the
    score never goes down. *)
Theorem hits_only_remove (w score : Z) (enemies : list Enemy)
  (bullets : list Bullet) :
  let '(kept, bullets', score') := bullet_vs_enemy w enemies bullets score in
  sublist kept enemies /\ sublist bullets' bullets
  /\ Forall (fun b => live w b = true) bullets'
  /\ score <= score'.
Proof.
  unfold bullet_vs_enemy.
  destruct (hit_loop w enemies (prune_bullets w bullets) score [])
    as [[kept bs] score'] eqn:Hl.
  destruct (hit_loop_sublists w enemies _ _ _ _ _ _ Hl)
    as (hit & -> & S1 & S2 & Hs).
  cbn [app]. rewrite prune_idem in S2.
  split; [exact S1|]. split; [|split; [|exact Hs]].
  - apply (sublist_trans (prune_bullets w bullets) bullets);
      [apply sublist_filter | exact S2].
  - apply Forall_forall. intros b Hb. apply filter_In in Hb. apply Hb.
Qed.

(** ** The step-wall test on the window *)

Lemma elev_at_in_range (visible : list column) (i : Z) :
  0 <= i < Z.of_nat (length visible) ->
  exists e, elev_at visible i = Some e.
Proof.
  intros H. unfold elev_at. cbv zeta.
  destruct (Z.ltb_spec i 0); [lia|].
  destruct (Z.ltb_spec i 0); [lia|].
  destruct (Z.leb_spec (Z.of_nat (length visible)) i); [lia|].
  cbn [orb].
  destruct (nth_error visible (Z.to_nat i)) as [c|] eqn:E.
  - exists (snd c). reflexivity.
  - apply nth_error_None in E. lia.
Qed.

Lemma clamp_bounds (v lo hi : Z) :
  lo <= hi -> lo <= Py.clamp v lo hi <= hi.
Proof.
  intros H. unfold Py.clamp.
  destruct (Z.ltb_spec v lo); [lia|].
  destruct (Z.ltb_spec hi v); lia.
Qed.

(** X23: on a window as wide as the screen the step-wall test never
    fails with an index out of range, wherever the player column is;
    and with the player at or beyond the last column the next column is
    its own, so the test does not fire. *)
Theorem step_wall_frame_safe (visible : list column) (w base_row player_x : Z)
  (y : Q) :
  Z.of_nat (length visible) = w ->
  (exists b, step_wall_frame visible w base_row player_x y = Some b)
  /\ (w - 1 <= player_x ->
      step_wall_frame visible w base_row player_x y <> Some true).
Proof.
  intros Hw. destruct visible as [|c cs] eqn:Ev.
  - cbn [step_wall_frame]. split; [eexists; reflexivity|].
    intros _. unfold step_wall.
    rewrite Z.ltb_irrefl, andb_false_r. discriminate.
  - rewrite <- Ev in *.
    assert (Hpos : 1 <= w) by (subst visible w; cbn [length]; lia).
    split.
    + pose proof (clamp_bounds player_x 0 (w - 1) ltac:(lia)) as C1.
      pose proof (clamp_bounds (Py.clamp player_x 0 (w - 1) + 1) 0 (w - 1)
                    ltac:(lia)) as C2.
      destruct (elev_at_in_range visible (Py.clamp player_x 0 (w - 1)))
        as (e1 & E1); [lia|].
      destruct (elev_at_in_range visible
                  (Py.clamp (Py.clamp player_x 0 (w - 1) + 1) 0 (w - 1)))
        as (e2 & E2); [lia|].
      unfold step_wall_frame. cbv zeta. rewrite E1, E2.
      rewrite Ev. eexists. reflexivity.
    + intros Hx. apply step_wall_frame_right_edge; lia.
Qed.

Lemma step_wall_frame_safe_witness :
  (exists b,
     step_wall_frame [(Ground, 0); (Ground, 1)] 2 20 5 20 = Some b)
  /\ (2 - 1 <= 5 ->
      step_wall_frame [(Ground, 0); (Ground, 1)] 2 20 5 20 <> Some true).
Proof.
  apply (step_wall_frame_safe [(Ground, 0); (Ground, 1)] 2 20 5 20).
  reflexivity.
Defined.

(** ** Pits against the jump *)

(** X24: at every speed at which the jump covers five columns or more,
    a pit that starts at the roll is at least [PIT_MIN] and at most
    [min(PIT_MAX, J - 2)] columns wide, so a jump of [J] columns clears
    it with a column to spare on either side. *)
Theorem pit_fits_jump (g : TrackGen) (s : Q) (e : Z)
  (m : option enemy_marker) (g1 : TrackGen) :
  5 <= max_jump_columns s ->
  rolling g ->
  next_cell g s = Some (((Pit, e), m), g1) ->
  PIT_MIN <= pit_left g1 + 1 <= Z.min PIT_MAX (max_jump_columns s - 2).
Proof.
  intros HJ R H.
  destruct (pit_start_width g s e m g1 R H) as ((W1 & _) & W2).
  split; [exact W1 | exact (W2 HJ)].
Qed.

Lemma pit_fits_jump_witness :
  PIT_MIN <= pit_left after_pit_start + 1
          <= Z.min PIT_MAX (max_jump_columns 1 - 2).
Proof.
  apply (pit_fits_jump pit_at_roll 1 0 None after_pit_start).
  - vm_compute. discriminate.
  - repeat split; discriminate.
  - reflexivity.
Defined.

(** X25: at the speeds of the game, from [START_SPEED] on, the jump
    covers at least 24 columns and the spacing is at least 28, so the
    pit cap is [PIT_MAX] and the widest pit is well inside one jump. *)
Theorem envelope_at_game_speed (s : Q) :
  (START_SPEED <= s)%Q ->
  24 <= max_jump_columns s
  /\ 28 <= min_spacing s
  /\ Z.max PIT_MIN (Z.min PIT_MAX (max_jump_columns s - 2)) = PIT_MAX.
Proof.
  intros Hs.
  assert (HJ : 24 <= max_jump_columns s).
  { unfold max_jump_columns. cbv zeta.
    assert (H24 : Py.int (START_SPEED * inject_Z FPS
                          * (2 * (JUMP_VEL / GRAVITY)) * (9 # 10))
                  <= Py.int (s * inject_Z FPS
                             * (2 * (JUMP_VEL / GRAVITY)) * (9 # 10))).
    { apply int_mono.
      repeat apply Qmult_le_compat_r; try assumption; discriminate. }
    change (Py.int (START_SPEED * inject_Z FPS
                    * (2 * (JUMP_VEL / GRAVITY)) * (9 # 10))) with 24 in H24.
    lia. }
  split; [exact HJ|]. split.
  - rewrite min_spacing_div.
    apply Z.div_le_lower_bound; lia.
  - unfold PIT_MIN, PIT_MAX. lia.
Qed.

Lemma envelope_at_game_speed_witness :
  24 <= max_jump_columns 2 /\ 28 <= min_spacing 2
  /\ Z.max PIT_MIN (Z.min PIT_MAX (max_jump_columns 2 - 2)) = PIT_MAX.
Proof. apply (envelope_at_game_speed 2). discriminate. Defined.

(** ** The step-up wall after the physics update *)

Lemma update_on_or_above (p : Player.t) (surface_row : Z) (dt : Q) :
  (Player.y (Player.update p surface_row dt) <= inject_Z surface_row)%Q
  /\ (Player.on_ground (Player.update p surface_row dt) = true ->
      Player.y (Player.update p surface_row dt) = inject_Z surface_row).
Proof.
  destruct (Player.on_ground p) eqn:O.
  - destruct (Player.jump_buffer p) eqn:J.
    + rewrite (update_take_off p surface_row dt O J).
      destruct (Py.geb (Player.y p - JUMP_VEL * dt) (inject_Z surface_row))
        eqn:G; cbn [Player.y Player.on_ground].
      * split; [apply Qle_refl | reflexivity].
      * apply Py_geb_false in G. split; [lra | discriminate].
    + unfold Player.update. rewrite J. cbn [andb]. rewrite O.
      cbn [negb Player.y Player.on_ground].
      split; [apply Qle_refl | reflexivity].
  - rewrite (update_airborne p surface_row dt O).
    destruct (Py.geb (Player.y p - Player.vy p * dt) (inject_Z surface_row))
      eqn:G; cbn [Player.y Player.on_ground].
    + split; [apply Qle_refl | reflexivity].
    + apply Py_geb_false in G. split; [lra | discriminate].
Qed.

Lemma near_surface_from_bounds (y : Q) (surface_row : Z) :
  (inject_Z surface_row - (51 # 100) < y <= inject_Z surface_row)%Q ->
  near_surface y surface_row = true.
Proof.
  intros H. unfold near_surface. apply Py_ltb_lt.
  apply Qabs_Qlt_condition. lra.
Qed.

(** C6, as stated: it fails for a player in the air.  One frame after a
    jump request the player is not grounded, and before a higher column
    the step-wall check fires all the same. *)
Lemma step_wall_fires_airborne :
  ~ (forall (base_row elev_here elev_next : Z) (p : Player.t) (dt : Q),
       let p' := Player.update p (base_row - elev_here) dt in
       step_wall base_row elev_here elev_next (Player.y p') = true <->
       Player.on_ground p' = true
       /\ elev_here < elev_next
       /\ (inject_Z (base_row - elev_next) < Player.y p')%Q).
Proof.
  intros H.
  specialize (H 20 0 1 (Player.request_jump (Player.init 20 5)) frame_time).
  cbv zeta in H. destruct H as [H _].
  assert (F : step_wall 20 0 1
                (Player.y
                   (Player.update
                      (Player.request_jump (Player.init 20 5)) (20 - 0)
                      frame_time)) = true) by reflexivity.
  destruct (H F) as [G _]. vm_compute in G. discriminate.
Qed.

(** C6, amended: after the physics update of a frame, the step-wall
    check fires if and only if the next column is strictly higher than
    the current one and the player's [y] is less than 0.51 rows above
    the surface row of the current column.  For a player that is
    grounded it fires exactly when the next column is higher; a player
    in the air fires it too while within those 0.51 rows.  The
    comparison of [y] with the next surface row never decides: a player
    whose [y] is at or above the next surface row does not fire it. *)
Theorem step_wall_after_update (base_row elev_here elev_next : Z)
  (p : Player.t) (dt : Q) :
  let surface_row := base_row - elev_here in
  let p' := Player.update p surface_row dt in
  (step_wall base_row elev_here elev_next (Player.y p') = true <->
   elev_here < elev_next
   /\ (inject_Z surface_row - (51 # 100) < Player.y p')%Q)
  /\ (Player.on_ground p' = true ->
      step_wall base_row elev_here elev_next (Player.y p')
      = (elev_here <? elev_next))
  /\ ((Player.y p' <= inject_Z (base_row - elev_next))%Q ->
      step_wall base_row elev_here elev_next (Player.y p') = false).
Proof.
  cbv zeta.
  destruct (update_on_or_above p (base_row - elev_here) dt) as [Hle Hgr].
  set (y := Player.y (Player.update p (base_row - elev_here) dt)) in *.
  assert (Hiff :
    step_wall base_row elev_here elev_next y = true <->
    elev_here < elev_next
    /\ (inject_Z (base_row - elev_here) - (51 # 100) < y)%Q).
  { rewrite step_wall_true_iff. split.
    - intros (Hn & Hlt & _). split; [exact Hlt|].
      apply near_surface_bounds in Hn. lra.
    - intros (Hlt & Hy).
      assert (Hn : near_surface y (base_row - elev_here) = true)
        by (apply near_surface_from_bounds; lra).
      repeat split; [exact Hn | exact Hlt |].
      pose proof (near_surface_below_step _ _ _ _ Hn Hlt). lra. }
  split; [exact Hiff|]. split.
  - intros Hg. apply Hgr in Hg.
    apply eq_true_iff_eq. rewrite Hiff, Z.ltb_lt.
    split; [tauto|]. intros Hlt. split; [exact Hlt|]. rewrite Hg. lra.
  - intros Hy. apply not_true_is_false. intros Hs.
    apply step_wall_true_iff in Hs. destruct Hs as (_ & _ & Hlt). lra.
Qed.

Lemma step_wall_after_update_witness :
  Player.on_ground (Player.update (Player.init 20 5) (20 - 0) frame_time)
  = true
  /\ step_wall 20 0 1
       (Player.y (Player.update (Player.init 20 5) (20 - 0) frame_time))
     = (0 <? 1).
Proof.
  pose proof (step_wall_after_update 20 0 1 (Player.init 20 5) frame_time)
    as H.
  cbv zeta in H. destruct H as (_ & H & _).
  split; [reflexivity | apply H; reflexivity].
Defined.

(** ** The width of a pit at the speeds where it fits the jump *)

Lemma pit_start_state (g : TrackGen) (s : Q) (e : Z)
  (m : option enemy_marker) (g1 : TrackGen) :
  rolling g ->
  next_cell g s = Some (((Pit, e), m), g1) ->
  warmup_cols g1 <= 0 /\ e = elev g1.
Proof.
  intros (Hw & Hp & Hc) H.
  destruct (next_cell_elev g s _ g1 H) as (E1 & _ & _).
  cbn [fst snd] in E1. split; [|exact E1].
  revert H.
  unfold next_cell, _step_event, random, randint, dec_edge_protect.
  cbv beta iota zeta. intros H.
  split_ifs; try discriminate;
    apply Some_pair_inv in H; destruct H as [_ <-]; fields; lia.
Qed.

Lemma jump_covers_five (s : Q) : (11 # 54 <= s)%Q -> 5 <= max_jump_columns s.
Proof.
  intros Hs. unfold max_jump_columns. cbv zeta.
  set (x := (s * inject_Z FPS * (2 * (JUMP_VEL / GRAVITY)) * (9 # 10))%Q).
  assert (Hx : (x == s * (270 # 11))%Q).
  { unfold x, FPS, JUMP_VEL, GRAVITY. field. }
  assert (H5 : Py.int 5 <= Py.int x) by (apply int_mono; lra).
  change (Py.int 5) with 5 in H5. lia.
Qed.

(** C1, amended: at every speed from 11/54 columns per frame on, where
    the jump covers five columns or more (every speed the game passes,
    which start at [START_SPEED]), the bound [min(PIT_MAX, J - 2)] is
    at least [PIT_MIN], so the pit roll is never suppressed, and a pit
    rolled at that speed has a total width in
    [PIT_MIN, min(PIT_MAX, J - 2)]: its first column and the pending
    columns that follow it. *)
Theorem pit_width_within_jump (g : TrackGen) (s : Q) (e : Z)
  (m : option enemy_marker) (g1 : TrackGen) :
  (11 # 54 <= s)%Q ->
  rolling g ->
  next_cell g s = Some (((Pit, e), m), g1) ->
  PIT_MIN <= Z.min PIT_MAX (max_jump_columns s - 2)
  /\ PIT_MIN <= pit_left g1 + 1 <= Z.min PIT_MAX (max_jump_columns s - 2)
  /\ forall speeds : list Q,
       Z.of_nat (length speeds) = pit_left g1 ->
       exists g2,
         next_cells g1 speeds
         = Some (repeat ((Pit, e), None) (length speeds), g2)
         /\ pit_left g2 = 0.
Proof.
  intros Hs R H.
  pose proof (jump_covers_five s Hs) as HJ.
  destruct (pit_start_width g s e m g1 R H) as ((W1 & _) & W2).
  specialize (W2 HJ).
  destruct (pit_start_state g s e m g1 R H) as (Hw & ->).
  split; [lia|]. split; [lia|].
  intros speeds Hlen.
  destruct (pit_columns speeds g1 Hw ltac:(lia)) as (g2 & N & _ & P & _).
  exists g2. split; [exact N | lia].
Qed.

Lemma pit_width_within_jump_witness :
  PIT_MIN <= Z.min PIT_MAX (max_jump_columns START_SPEED - 2)
  /\ PIT_MIN <= pit_left after_wide_pit_start + 1
             <= Z.min PIT_MAX (max_jump_columns START_SPEED - 2)
  /\ forall speeds : list Q,
       Z.of_nat (length speeds) = pit_left after_wide_pit_start ->
       exists g2,
         next_cells after_wide_pit_start speeds
         = Some (repeat ((Pit, 0), None) (length speeds), g2)
         /\ pit_left g2 = 0.
Proof.
  apply (pit_width_within_jump wide_pit_at_roll START_SPEED 0 None
           after_wide_pit_start).
  - discriminate.
  - repeat split; discriminate.
  - reflexivity.
Defined.
